(** * Tor Bridges Harvester: a shallow embedding of [main_grok_hide_logs.go]

    The development follows the Go source function by function:
    string helpers of package [strings] that the program calls,
    [parseAddress], [filterAndSortRelays], [generateOutput], the probing
    of one batch with its channel of results, and the batch loop of
    [main].  Go strings are byte strings; they are modelled by [string]
    (a list of 8-bit characters).  Go [int] values that the user controls
    (the [-n] and [-g] flags, slice bounds) are modelled by [Z]. *)

From Stdlib Require Import ZArith Ascii String DecimalString.
From stdpp Require Import base list strings gmap sorting.

Local Open Scope Z_scope.
Local Open Scope string_scope.

(** ** Package [strings] *)

Module Strings.

(** [s[n:]] on a string (the callers below never slice out of range). *)
Fixpoint drop_str (n : nat) (s : string) : string :=
  match n, s with
  | O, _ => s
  | S _, EmptyString => EmptyString
  | S k, String _ s' => drop_str k s'
  end.

(** [s[:n]]. *)
Fixpoint take_str (n : nat) (s : string) : string :=
  match n, s with
  | O, _ => EmptyString
  | S _, EmptyString => EmptyString
  | S k, String c s' => String c (take_str k s')
  end.

(** [s[lo:hi]]. *)
Definition slice_str (lo hi : nat) (s : string) : string :=
  take_str (hi - lo) (drop_str lo s).

(** [strings.HasPrefix(s, p)]. *)
Definition HasPrefix (s p : string) : bool := String.prefix p s.

(** [strings.Contains(s, sub)]. *)
Fixpoint Contains (s sub : string) : bool :=
  HasPrefix s sub ||
  match s with
  | EmptyString => false
  | String _ s' => Contains s' sub
  end.

(** [strings.LastIndex(s, sub)]: the byte offset of the last occurrence of
    [sub] in [s], or [-1]; [go] carries the offset of the suffix being
    inspected. *)
Fixpoint LastIndex_go (off : Z) (s sub : string) : Z :=
  let here := if HasPrefix s sub then off else (-1)%Z in
  match s with
  | EmptyString => here
  | String _ s' =>
      let later := LastIndex_go (off + 1) s' sub in
      if (later <? 0)%Z then here else later
  end.

Definition LastIndex (s sub : string) : Z := LastIndex_go 0 s sub.

(** [strings.Split(s, sep)] for a non-empty separator (the program only
    splits on [":"], [","] and a newline): cuts at every non-overlapping
    occurrence of [sep], scanning from the left.  [skip] counts the bytes of
    a separator still to be passed over, [cur] is the current piece in
    reverse. *)
Fixpoint Split_go (sep : string) (skip : nat) (cur : list ascii) (s : string)
  : list string :=
  match s with
  | EmptyString => [string_of_list_ascii (rev cur)]
  | String c s' =>
      match skip with
      | S k => Split_go sep k cur s'
      | O =>
          if HasPrefix s sep
          then string_of_list_ascii (rev cur)
                 :: Split_go sep (String.length sep - 1) [] s'
          else Split_go sep 0 (c :: cur) s'
      end
  end.

Definition Split (s sep : string) : list string := Split_go sep 0 [] s.

(** [strings.Join(elems, sep)]. *)
Fixpoint Join (elems : list string) (sep : string) : string :=
  match elems with
  | [] => ""
  | [e] => e
  | e :: rest => e +:+ sep +:+ Join rest sep
  end.

(** [strings.TrimSpace]: removes leading and trailing white space as Unicode
    defines it.  On bytes, a white-space rune is one of the six ASCII ones
    or one of the UTF-8 sequences of U+0085, U+00A0, U+1680, U+2000..U+200A,
    U+2028, U+2029, U+202F, U+205F and U+3000. *)
Definition asciiSpace (c : ascii) : bool :=
  let n := nat_of_ascii c in
  ((9 <=? n) && (n <=? 13))%nat || (n =? 32)%nat.

Definition space2 (a b : ascii) : bool :=
  let a := nat_of_ascii a in let b := nat_of_ascii b in
  ((a =? 194) && ((b =? 133) || (b =? 160)))%nat.

Definition space3 (a b c : ascii) : bool :=
  let a := nat_of_ascii a in let b := nat_of_ascii b in
  let c := nat_of_ascii c in
  (((a =? 225) && (b =? 154) && (c =? 128))
   || ((a =? 226) && (b =? 128)
       && (((128 <=? c) && (c <=? 138)) || (c =? 168) || (c =? 169)
           || (c =? 175)))
   || ((a =? 226) && (b =? 129) && (c =? 159))
   || ((a =? 227) && (b =? 128) && (c =? 128)))%nat.

Fixpoint TrimLeft (s : list ascii) : list ascii :=
  match s with
  | a :: r1 =>
      if asciiSpace a then TrimLeft r1 else
      match r1 with
      | b :: r2 =>
          if space2 a b then TrimLeft r2 else
          match r2 with
          | c :: r3 => if space3 a b c then TrimLeft r3 else s
          | [] => s
          end
      | [] => s
      end
  | [] => []
  end.

(** The same on the reversed string: the last rune comes first, its bytes
    in reverse order. *)
Fixpoint TrimLeft_rev (s : list ascii) : list ascii :=
  match s with
  | a :: r1 =>
      if asciiSpace a then TrimLeft_rev r1 else
      match r1 with
      | b :: r2 =>
          if space2 b a then TrimLeft_rev r2 else
          match r2 with
          | c :: r3 => if space3 c b a then TrimLeft_rev r3 else s
          | [] => s
          end
      | [] => s
      end
  | [] => []
  end.

Definition TrimSpace (s : string) : string :=
  string_of_list_ascii
    (rev (TrimLeft_rev (rev (TrimLeft (list_ascii_of_string s))))).

(** [fmt.Sprintf("%d", i)] for a non-negative [int]. *)
Definition Itoa (n : nat) : string := NilZero.string_of_uint (Nat.to_uint n).

End Strings.
Import Strings.

(** ** The relay record *)

Record Relay := mkRelay {
  Fingerprint : string;
  OrAddresses : list string;
  Country : string;
  Reachable : list string
}.

(** ** [parseAddress] *)

Definition parseAddress (addr : string) : string * string :=
  let parts := Split addr ":" in
  if (length parts <? 2)%nat then ("", "")
  else
    let host := nth 0 parts "" in
    let port := nth (length parts - 1) parts "" in
    if HasPrefix host "[" && Contains addr "]:" then
      let host := drop_str 1 host in
      let portIdx := LastIndex addr ":" in
      let host := slice_str 1 (Z.to_nat portIdx) addr in
      let port := drop_str (Z.to_nat (portIdx + 1)) addr in
      (host, port)
    else (host, port).

(** ** [filterAndSortRelays] *)

(** The three maps built from the [-c] rule string.  A [nil] map and an
    empty map behave alike for the reads and [len] the function performs,
    so both are the empty [gmap]. *)
Record CountryMaps := mkMaps {
  onlyCountries : gmap string nat;
  excludeCountries : gmap string nat;
  sortedCountries : gmap string nat
}.

Definition noMaps : CountryMaps := mkMaps ∅ ∅ ∅.

(** One iteration of [for i, c := range countries]. *)
Definition addCountry (i : nat) (c : string) (m : CountryMaps) : CountryMaps :=
  let c := TrimSpace c in
  if HasPrefix c "!" then
    mkMaps (<[drop_str 1 c := i]> (onlyCountries m))
           (excludeCountries m) (sortedCountries m)
  else if HasPrefix c "-" then
    mkMaps (onlyCountries m)
           (<[drop_str 1 c := i]> (excludeCountries m)) (sortedCountries m)
  else
    mkMaps (onlyCountries m) (excludeCountries m)
           (<[c := i]> (sortedCountries m)).

Fixpoint addCountries (i : nat) (countries : list string) (m : CountryMaps)
  : CountryMaps :=
  match countries with
  | [] => m
  | c :: rest => addCountries (S i) rest (addCountry i c m)
  end.

Definition parseCountries (preferredCountry : string) : CountryMaps :=
  if String.eqb preferredCountry "" then noMaps
  else addCountries 0 (Split preferredCountry ",") noMaps.

(** [_, exists := m[k]]. *)
Definition has (m : gmap string nat) (k : string) : bool :=
  match m !! k with Some _ => true | None => false end.

(** The inner loops over [r.OrAddresses] and [ports]: an address is kept
    when some port of the list equals its parsed port. *)
Definition portMatches (ports : list string) (addr : string) : bool :=
  existsb (fun p => String.eqb p (snd (parseAddress addr))) ports.

Definition narrowAddrs (ports : list string) (addrs : list string)
  : list string :=
  List.filter (portMatches ports) addrs.

Definition withAddrs (r : Relay) (addrs : list string) : Relay :=
  mkRelay (Fingerprint r) addrs (Country r) (Reachable r).

(** The body of [for _, r := range relays]: [None] is [continue]. *)
Definition filterOne (m : CountryMaps) (ports : list string) (r : Relay)
  : option Relay :=
  if (0 <? size (onlyCountries m))%nat && negb (has (onlyCountries m) (Country r))
  then None
  else if has (excludeCountries m) (Country r) then None
  else if (0 <? length ports)%nat then
    let newAddrs := narrowAddrs ports (OrAddresses r) in
    if (length newAddrs =? 0)%nat then None
    else Some (withAddrs r newAddrs)
  else Some r.

Definition filterRelays (m : CountryMaps) (ports : list string)
  (relays : list Relay) : list Relay :=
  omap (filterOne m ports) relays.

(** The comparison closure handed to [sort.Slice]. *)
Definition rankOf (sorted : gmap string nat) (r : Relay) : nat :=
  match sorted !! Country r with Some ci => ci | None => 1000%nat end.

Definition lessByCountry (sorted : gmap string nat) (a b : Relay) : bool :=
  (rankOf sorted a <? rankOf sorted b)%nat.

(** [sort.Slice] belongs to the Go library, and its algorithm differs
    between Go releases.  The program is modelled over any function that
    meets the documented contract: the result is a rearrangement of the
    slice, in an order compatible with [less]; stability is explicitly not
    promised. *)
Definition weak_order {A} (less : A → A → bool) : Prop :=
  (∀ a, less a a = false)
  ∧ (∀ a b c, less a b = true → less b c = true → less a c = true)
  ∧ (∀ a b c, less a b = false → less b c = false → less a c = false).

Record SortSliceSpec
  (sortSlice : (Relay → Relay → bool) → list Relay → list Relay) : Prop := {
  sortSlice_perm : ∀ less l, sortSlice less l ≡ₚ l;
  sortSlice_sorted : ∀ less l, weak_order less →
    StronglySorted (λ a b, less b a = false) (sortSlice less l)
}.

Definition filterAndSortRelays
  (sortSlice : (Relay → Relay → bool) → list Relay → list Relay)
  (relays : list Relay) (preferredCountry : string) (ports : list string)
  : list Relay :=
  let m := parseCountries preferredCountry in
  let filtered := filterRelays m ports relays in
  if (0 <? size (sortedCountries m))%nat
  then sortSlice (lessByCountry (sortedCountries m)) filtered
  else filtered.

(** A sort meeting the contract, to run the model on concrete inputs:
    insertion of each element before the first one that is not smaller. *)
Fixpoint insertBefore {A} (less : A → A → bool) (x : A) (l : list A) : list A :=
  match l with
  | [] => [x]
  | y :: l' => if less y x then y :: insertBefore less x l' else x :: l
  end.

Definition insertionSort {A} (less : A → A → bool) (l : list A) : list A :=
  foldr (insertBefore less) [] l.

(** A second one, which sorts the slice read backwards; equal elements
    come out in reverse order. *)
Definition backwardSort {A} (less : A → A → bool) (l : list A) : list A :=
  insertionSort less (rev l).

(** ** [generateOutput] *)

Definition nl : string := String (ascii_of_nat 10) "".
Definition dq : string := String (ascii_of_nat 34) "".

(** [fmt.Sprintf("%s%s %s\n", prefix, addr, r.Fingerprint)]. *)
Definition bridgeLine (prefix addr fp : string) : string :=
  prefix +:+ addr +:+ " " +:+ fp +:+ nl.

(** What the two nested loops over [workingRelays] and [r.Reachable]
    write to [outfile]. *)
Fixpoint bridgeLines (prefix : string) (workingRelays : list Relay) : string :=
  match workingRelays with
  | [] => ""
  | r :: rest =>
      foldr (fun addr acc => bridgeLine prefix addr (Fingerprint r) +:+ acc)
            (bridgeLines prefix rest) (Reachable r)
  end.

(** The [user_pref] line for index [i]. *)
Definition prefLine (i : nat) (addr fp : string) : string :=
  "user_pref(" +:+ dq +:+ "torbrowser.settings.bridges.bridge_strings."
  +:+ Itoa i +:+ dq +:+ ", " +:+ dq +:+ addr +:+ " " +:+ fp +:+ dq +:+ ");".

(** The entries appended by [for i, r := range workingRelays], each with
    the index it is formatted with; [i] is the index of the first relay. *)
Fixpoint prefEntries (i : nat) (workingRelays : list Relay)
  : list (nat * string * string) :=
  match workingRelays with
  | [] => []
  | r :: rest =>
      (map (fun addr => (i, addr, Fingerprint r)) (Reachable r)
       ++ prefEntries (S i) rest)%list
  end.

Definition renderPref (e : nat * string * string) : string :=
  let '(i, addr, fp) := e in prefLine i addr fp.

(** State of the file named by [-browser] when [generateOutput] runs:
    absent, unreadable, readable and rewritten by the final
    [os.WriteFile], or readable while that write fails (the file cannot be
    opened for writing, and keeps its content). *)
Inductive PrefsFile :=
| PrefsMissing
| PrefsUnreadable
| PrefsContent (content : string)
| PrefsUnwritable (content : string).

Inductive OutputError := ErrPrefsNotExist | ErrPrefsRead | ErrPrefsWrite.

Record Output := mkOutput {
  written : string;                (* bytes flushed to [outfile] *)
  prefsWritten : option string;    (* new content of the preferences file *)
  outputErr : option OutputError
}.

Definition generateOutput (workingRelays : list Relay) (torrcFmt : bool)
  (prefsjs : string) (file : PrefsFile) : Output :=
  let prefix := if torrcFmt then "Bridge " else "" in
  let text :=
    bridgeLines prefix workingRelays
    +:+ (if torrcFmt then "UseBridges 1" +:+ nl else "") in
  if String.eqb prefsjs "" then mkOutput text None None
  else
    match file with
    | PrefsMissing => mkOutput text None (Some ErrPrefsNotExist)
    | PrefsUnreadable => mkOutput text None (Some ErrPrefsRead)
    | PrefsContent content =>
        let lines := Split content nl in
        let newLines :=
          List.filter
            (fun line => negb (Contains line "torbrowser.settings.bridges."))
            lines in
        let newLines : list string :=
          (newLines ++ map renderPref (prefEntries 0 workingRelays))%list in
        let newLines : list string :=
          (newLines
           ++ ["user_pref(" +:+ dq +:+ "torbrowser.settings.bridges.enabled"
               +:+ dq +:+ ", true);"])%list in
        let newLines : list string :=
          (newLines
           ++ ["user_pref(" +:+ dq +:+ "torbrowser.settings.bridges.source"
               +:+ dq +:+ ", 2);"])%list in
        mkOutput text (Some (Join newLines nl)) None
    | PrefsUnwritable _ => mkOutput text None (Some ErrPrefsWrite)
    end.

(** ** Probing one batch *)

(** Memory during one batch.  Cells [0 .. n-1] are the elements of
    [chunk]; the cells after them hold the loop variable [relay] of
    [for _, relay := range chunk], which receives a copy of each element.
    With per-iteration loop variables (Go 1.22 semantics) iteration [k] has
    its own cell [n + k]; before that one cell [n] is reused, and holds the
    last element once the loop is over. *)
Record Result := mkResult {
  Address : string;
  RelayPtr : nat          (* the [*Relay] sent along: a cell number *)
}.

Definition loopVarCell (perIteration : bool) (n k : nat) : nat :=
  if perIteration then (n + k)%nat else n.

Definition loopVarCells (perIteration : bool) (chunk : list Relay)
  : list Relay :=
  if perIteration then chunk
  else match last chunk with Some r => [r] | None => [] end.

(** The goroutines started by the two nested loops, in start order: each
    dials one address and holds [&relay]. *)
Fixpoint spawned (perIteration : bool) (n k : nat) (chunk : list Relay)
  : list Result :=
  match chunk with
  | [] => []
  | relay :: rest =>
      (map (fun addr => mkResult addr (loopVarCell perIteration n k))
           (OrAddresses relay)
       ++ spawned perIteration n (S k) rest)%list
  end.

(** [res.Relay.Reachable = append(res.Relay.Reachable, res.Address)]. *)
Definition appendReachable (heap : list Relay) (res : Result) : list Relay :=
  match heap !! RelayPtr res with
  | Some r =>
      <[RelayPtr res :=
          mkRelay (Fingerprint r) (OrAddresses r) (Country r)
                  (Reachable r ++ [Address res])%list]> heap
  | None => heap
  end.

(** [for res := range results]. *)
Definition drain (heap : list Relay) (results : list Result) : list Relay :=
  foldl appendReachable heap results.

(** [if len(r.Reachable) > 0]. *)
Definition isReachable (r : Relay) : bool := (0 <? length (Reachable r))%nat.

Inductive Batch :=
| BatchDeadlock (dials : list string) (sink : list string)
| BatchDone (dials : list string) (sink : list string)
            (heap : list Relay) (accepted : list Relay).

(** One pass of the body of the batch loop.  [dial addr] tells whether
    [net.DialTimeout] succeeds for [addr].  Successful goroutines write
    their line to [_bridges.txt] and send on the channel, whose buffer
    holds [len(chunk)*10] results; a goroutine that finds it full blocks
    before [wg.Done], and [wg.Wait] never returns.  The lines reach the
    file, and the results the channel, in completion order, which varies
    from run to run; start order is taken here as one such order, and
    what is stated of [sink] below is its length or its content up to
    order.  [scan_drain] below
    shows that the order and content of the channel do not matter for
    the scan of [chunk].  With a reused loop variable the goroutines read
    [relay.Fingerprint] while the loop may still assign it; the line is
    formed from its final value. *)
Definition probeBatch (perIteration : bool) (dial : string → bool)
  (chunk : list Relay) : Batch :=
  let n := length chunk in
  let goroutines := spawned perIteration n 0 chunk in
  let heap0 := (chunk ++ loopVarCells perIteration chunk)%list in
  let sent := List.filter (fun g => dial (Address g)) goroutines in
  let line g :=
    Address g +:+ " "
    +:+ match heap0 !! RelayPtr g with
        | Some r => Fingerprint r
        | None => ""
        end +:+ nl in
  let dials := map Address goroutines in
  let sink := map line sent in
  if (10 * n <? length sent)%nat then BatchDeadlock dials sink
  else
    let heap := drain heap0 sent in
    (* for _, r := range chunk *)
    BatchDone dials sink heap (List.filter isReachable (take n heap)).

(** ** The batch loop and [main] *)

(** What the loop has done so far. *)
Record Sched := mkSched {
  attempts : nat;                 (* batches started *)
  dialed : list string;           (* addresses dialled, in start order *)
  sink : list string;             (* lines appended to [_bridges.txt] *)
  workingRelays : list Relay
}.

Inductive Stop :=
| Finished       (* the loop condition became false *)
| Deadlocked     (* [wg.Wait] never returned *)
| Panicked       (* slice bounds out of range, or division by zero *)
| Running.       (* the model ran out of fuel *)

Definition len {A} (l : list A) : Z := Z.of_nat (length l).

(** [for i := 0; i < len(relays) && len(workingRelays) < *goal;
    i += *numRelays].  With [*numRelays < 0] the slice expression
    [relays[i:end]] has [end < i]; with [*numRelays = 0] the attempt
    number [(i / *numRelays) + 1] of the log line divides by zero. *)
Fixpoint batchLoop (fuel : nat) (perIteration : bool) (dial : string → bool)
  (relays : list Relay) (numRelays goal : Z) (i : Z) (st : Sched)
  : Stop * Sched :=
  match fuel with
  | O => (Running, st)
  | S fuel' =>
      if ((i <? len relays) && (len (workingRelays st) <? goal))%Z then
        let end_ := (i + numRelays)%Z in
        let end_ := if (end_ >? len relays)%Z then len relays else end_ in
        if ((end_ <? i) || (numRelays =? 0))%Z then (Panicked, st)
        else
          let chunk := take (Z.to_nat (end_ - i)%Z) (drop (Z.to_nat i) relays) in
          match probeBatch perIteration dial chunk with
          | BatchDeadlock d s =>
              (Deadlocked,
               mkSched (S (attempts st)) (dialed st ++ d)%list (sink st ++ s)%list
                       (workingRelays st))
          | BatchDone d s _ accepted =>
              batchLoop fuel' perIteration dial relays numRelays goal
                (i + numRelays)%Z
                (mkSched (S (attempts st)) (dialed st ++ d)%list (sink st ++ s)%list
                         (workingRelays st ++ accepted)%list)
          end
      else (Finished, st)
  end.

Definition sched0 : Sched := mkSched 0 [] [] [].

(** The flags that matter once the directory is loaded. *)
Record Config := mkConfig {
  numRelays : Z;               (* -n *)
  goal : Z;                    (* -g *)
  preferredCountry : string;   (* -c *)
  ports : string;              (* -p *)
  torrcFmt : bool;             (* -torrc *)
  prefsjs : string             (* -browser *)
}.

(** The world the run meets.  [fetched] is the result of [loadRelays]
    after [rand.Shuffle], [None] when every URL failed. *)
Record Env := mkEnv {
  perIteration : bool;
  fetched : option (list Relay);
  dial : string → bool;
  bridgesFileOpens : bool;
  prefsFile : PrefsFile
}.

Inductive Exit :=
| ExitOk                          (* [main] returns *)
| ExitFatal (msg : string)        (* [log.Fatal] *)
| ExitFatalOutput (e : OutputError)
| ExitDeadlock
| ExitPanic
| ExitRunning.

Record Run := mkRun {
  exit : Exit;
  sched : Sched;
  output : option Output;
  logged : list string    (* the lines that report the outcome of the run *)
}.

Section Main.

Variable sortSlice : (Relay → Relay → bool) → list Relay → list Relay.

(** [main] from the call of [loadRelays] on; the launch of the browser at
    the end only logs and is left out. *)
Definition main (cfg : Config) (env : Env) : Run :=
  let portList :=
    if String.eqb (ports cfg) "" then [] else Split (ports cfg) "," in
  match fetched env with
  | None =>
      mkRun (ExitFatal "failed to download relay data from all URLs")
            sched0 None []
  | Some relays =>
      let relays :=
        filterAndSortRelays sortSlice relays (preferredCountry cfg) portList in
      if (length relays =? 0)%nat then
        mkRun (ExitFatal "No relays match the specified criteria") sched0 None
              ["No relays match the specified criteria"]
      else if negb (bridgesFileOpens env) then
        mkRun (ExitFatal "Failed to open _bridges.txt") sched0 None []
      else
        match batchLoop (S (length relays)) (perIteration env) (dial env)
                relays (numRelays cfg) (goal cfg) 0 sched0 with
        | (Finished, st) =>
            if (0 <? length (workingRelays st))%nat then
              let o := generateOutput (workingRelays st) (torrcFmt cfg)
                         (prefsjs cfg) (prefsFile env) in
              match outputErr o with
              | Some e => mkRun (ExitFatalOutput e) st (Some o) []
              | None => mkRun ExitOk st (Some o) []
              end
            else mkRun ExitOk st None ["No reachable relays found."]
        | (Deadlocked, st) => mkRun ExitDeadlock st None []
        | (Panicked, st) => mkRun ExitPanic st None []
        | (Running, st) => mkRun ExitRunning st None []
        end
  end.

End Main.

(** ** Reference definitions, in the words of the specification *)

(** Batch [j] of a partition into consecutive batches of [n] candidates. *)
Definition chunkAt (relays : list Relay) (n j : nat) : list Relay :=
  take n (drop (j * n) relays).

(** The accepted set after [k] batches: the candidates of those batches
    that have a reachable address, in batch order. *)
Fixpoint acceptedAfter (relays : list Relay) (n k : nat) : list Relay :=
  match k with
  | O => []
  | S k' =>
      acceptedAfter relays n k' ++ List.filter isReachable (chunkAt relays n k')
  end.

(** Rank order with the countries absent from the map after all ranked
    ones, and the stable sort by it. *)
Definition specLess (sorted : gmap string nat) (a b : Relay) : bool :=
  match sorted !! Country a, sorted !! Country b with
  | Some x, Some y => (x <? y)%nat
  | Some _, None => true
  | None, _ => false
  end.

Definition stableSortByRank (sorted : gmap string nat) (l : list Relay)
  : list Relay :=
  insertionSort (specLess sorted) l.

(** The (address, fingerprint) pairs of an accepted set, in input order. *)
Definition pairsOf (workingRelays : list Relay) : list (string * string) :=
  flat_map (fun r => map (fun addr => (addr, Fingerprint r)) (Reachable r))
           workingRelays.

(** Eight candidates in four batches of two; those of the second, third
    and fourth batch arrive with a non-empty [Reachable] (the directory
    record carried the field). *)
Definition demoRelays : list Relay :=
  [mkRelay "F0" ["10.0.0.0:443"] "de" [];
   mkRelay "F1" ["10.0.0.1:443"] "de" [];
   mkRelay "F2" ["10.0.0.2:443"] "de" ["10.0.0.2:443"];
   mkRelay "F3" ["10.0.0.3:443"] "de" ["10.0.0.3:443"];
   mkRelay "F4" ["10.0.0.4:443"] "de" ["10.0.0.4:443"];
   mkRelay "F5" ["10.0.0.5:443"] "de" ["10.0.0.5:443"];
   mkRelay "F6" ["10.0.0.6:443"] "de" ["10.0.0.6:443"];
   mkRelay "F7" ["10.0.0.7:443"] "de" ["10.0.0.7:443"]].


(** One candidate, as decoded from the directory. *)
Definition oneRelay : list Relay :=
  [mkRelay "ABCD" ["1.2.3.4:443"] "de" []].

(** A country rule of 1002 tokens, all [ZZ]. *)
Definition manyTokens : string := Join (replicate 1002 "ZZ") ",".

(** ** Reading a batch outcome *)

Definition batchDials (b : Batch) : list string :=
  match b with BatchDeadlock d _ | BatchDone d _ _ _ => d end.

Definition batchSink (b : Batch) : list string :=
  match b with BatchDeadlock _ s | BatchDone _ s _ _ => s end.

Definition isDeadlock (b : Batch) : bool :=
  match b with BatchDeadlock _ _ => true | BatchDone _ _ _ _ => false end.


(** The line of [_bridges.txt] for an address of relay [r]. *)
Definition sinkLine (r : Relay) (addr : string) : string :=
  addr +:+ " " +:+ Fingerprint r +:+ nl.

(** ** [loadRelays] and the list of sources *)

(** What one [client.Get] followed by the JSON decoder gives for a URL. *)
Inductive Fetch :=
| GetFails                        (* [client.Get] returned an error *)
| DecodeFails                     (* the body is not the expected JSON *)
| Loaded (relays : list Relay).

Inductive LoadError :=
| ErrProxy          (* invalid proxy URL *)
| ErrAllFailed.     (* failed to download relay data from all URLs *)

(** [for _, u := range urls]: the URLs contacted, in order, and the relays
    of the first one that loads. *)
Fixpoint fetchFirst (get : string → Fetch) (urls : list string)
  : list string * option (list Relay) :=
  match urls with
  | [] => ([], None)
  | u :: rest =>
      match get u with
      | Loaded relays => ([u], Some relays)
      | GetFails | DecodeFails =>
          let '(contacted, r) := fetchFirst get rest in (u :: contacted, r)
      end
  end.

(** [proxyParses] tells whether [url.Parse(proxy)] succeeds; it is only
    consulted for a non-empty [proxy]. *)
Definition loadRelays (urls : list string) (proxy : string)
  (proxyParses : bool) (get : string → Fetch)
  : list string * (LoadError + list Relay) :=
  if negb (String.eqb proxy "") && negb proxyParses then ([], inl ErrProxy)
  else
    match fetchFirst get urls with
    | (contacted, Some relays) => (contacted, inr relays)
    | (contacted, None) => (contacted, inl ErrAllFailed)
    end.

(** A source that cannot be fetched or decoded. *)
Definition notLoaded (get : string → Fetch) (u : string) : Prop :=
  ∀ relays, get u ≠ Loaded relays.

(** The built-in sources of [main]. *)
Definition defaultUrls : list string :=
  ["https://onionoo.torproject.org/details?type=relay&running=true&fields=fingerprint,or_addresses,country";
   "https://icors.vercel.app/?https://onionoo.torproject.org/details?type=relay&running=true&fields=fingerprint,or_addresses,country";
   "https://github.com/ValdikSS/tor-onionoo-mirror/raw/master/details-running-relays-fingerprint-address-only.json";
   "https://bitbucket.org/ValdikSS/tor-onionoo-mirror/raw/master/details-running-relays-fingerprint-address-only.json"].

(** [urlList] of [main] for the value of the [-url] flag. *)
Definition urlList (urls : string) : list string :=
  if String.eqb urls "" then defaultUrls
  else (Split urls "," ++ defaultUrls)%list.

(** ** [startBrowser] *)

(** [exists path] is the outcome of [os.Stat], [starts path args] that of
    [exec.Command(path, args...).Start()].  The result lists the commands
    started, and tells whether one of them started ([nil] error). *)
Definition browserCmds : list string :=
  ["Browser/start-tor-browser --detach"; "Browser/firefox.exe"].

Fixpoint startBrowser_go (exists_ : string → bool)
  (starts : string → list string → bool) (cmds : list string)
  : list (string * list string) * bool :=
  match cmds with
  | [] => ([], false)
  | cmd :: rest =>
      let parts := Split cmd " " in
      let path := nth 0 parts "" in
      let args := drop 1 parts in
      if exists_ path then
        if starts path args then ([(path, args)], true)
        else
          let '(tried, ok) := startBrowser_go exists_ starts rest in
          ((path, args) :: tried, ok)
      else startBrowser_go exists_ starts rest
  end.

Definition startBrowser (exists_ : string → bool)
  (starts : string → list string → bool)
  : list (string * list string) * bool :=
  startBrowser_go exists_ starts browserCmds.

(** ** The lines of the rewritten preferences file *)




(** * Properties *)

(** ** Strings *)

Lemma append_nil_l (s : string) : "" +:+ s = s.
Proof. reflexivity. Qed.

Lemma append_cons c (a b : string) : String c a +:+ b = String c (a +:+ b).
Proof. reflexivity. Qed.

Lemma append_empty_r (s : string) : s +:+ "" = s.
Proof.
  induction s as [|c s IH]; [reflexivity|].
  now rewrite append_cons, IH.
Qed.

Lemma append_assoc (a b c : string) : (a +:+ b) +:+ c = a +:+ (b +:+ c).
Proof.
  induction a as [|x a IH]; [reflexivity|].
  now rewrite !append_cons, IH.
Qed.

Lemma string_of_list_ascii_snoc l c :
  string_of_list_ascii (l ++ [c]) = string_of_list_ascii l +:+ String c "".
Proof.
  induction l as [|a l IH]; [reflexivity|].
  cbn [app string_of_list_ascii]. now rewrite IH, append_cons.
Qed.

(** Splitting a string without colon yields the string itself. *)
Lemma Split_go_no_colon s cur :
  Contains s ":" = false →
  Split_go ":" 0 cur s = [string_of_list_ascii (rev cur) +:+ s].
Proof.
  revert cur; induction s as [|c s IH]; intros cur H.
  - simpl. now rewrite append_empty_r.
  - cbn [Contains] in H. apply orb_false_iff in H as [Hp Hc].
    cbn [Split_go]. rewrite Hp, (IH _ Hc). f_equal.
    cbn [rev]. rewrite string_of_list_ascii_snoc, append_assoc.
    reflexivity.
Qed.

Lemma Split_no_colon s : Contains s ":" = false → Split s ":" = [s].
Proof. intros H. unfold Split. now rewrite Split_go_no_colon. Qed.

Lemma parseAddress_no_colon addr :
  Contains addr ":" = false → parseAddress addr = ("", "").
Proof. intros H. unfold parseAddress. now rewrite Split_no_colon. Qed.

(** ** The country rule *)

Lemma has_insert (m : gmap string nat) k i c :
  has (<[k := i]> m) c = bool_decide (k = c) || has m c.
Proof.
  unfold has. destruct (decide (k = c)) as [->|Hne].
  - now rewrite lookup_insert_eq, bool_decide_eq_true_2.
  - now rewrite lookup_insert_ne, bool_decide_eq_false_2.
Qed.

Lemma addCountry_exclude_mono i t m c :
  has (excludeCountries m) c = true →
  has (excludeCountries (addCountry i t m)) c = true.
Proof.
  intros H. unfold addCountry.
  destruct (HasPrefix (TrimSpace t) "!"); [exact H|].
  destruct (HasPrefix (TrimSpace t) "-"); [|exact H].
  cbn [excludeCountries]. rewrite has_insert, H. apply orb_true_r.
Qed.

Lemma addCountry_exclude_token i t m c :
  TrimSpace t = "-" +:+ c →
  has (excludeCountries (addCountry i t m)) c = true.
Proof.
  intros H. unfold addCountry. rewrite H.
  change (HasPrefix ("-" +:+ c) "!") with false.
  change (HasPrefix ("-" +:+ c) "-") with (String.prefix "" c).
  change (drop_str 1 ("-" +:+ c)) with c.
  destruct c; cbn [String.prefix excludeCountries];
    now rewrite has_insert, bool_decide_eq_true_2.
Qed.

Lemma addCountries_exclude_mono tokens i m c :
  has (excludeCountries m) c = true →
  has (excludeCountries (addCountries i tokens m)) c = true.
Proof.
  revert i m; induction tokens as [|t tokens IH]; intros i m H; [exact H|].
  cbn [addCountries]. apply IH. now apply addCountry_exclude_mono.
Qed.

Lemma addCountries_exclude_token tokens i m c t :
  t ∈ tokens → TrimSpace t = "-" +:+ c →
  has (excludeCountries (addCountries i tokens m)) c = true.
Proof.
  revert i m; induction tokens as [|t' tokens IH]; intros i m Hin Ht.
  - inversion Hin.
  - cbn [addCountries]. apply elem_of_cons in Hin as [->|Hin].
    + apply addCountries_exclude_mono. now apply addCountry_exclude_token.
    + now apply IH.
Qed.

(** A token [-c] of the rule puts [c] into [excludeCountries]. *)
Lemma parseCountries_exclude rule c t :
  t ∈ Split rule "," → TrimSpace t = "-" +:+ c →
  has (excludeCountries (parseCountries rule)) c = true.
Proof.
  intros Hin Ht. unfold parseCountries.
  destruct (String.eqb_spec rule "") as [->|Hne].
  - apply list_elem_of_singleton in Hin as ->. discriminate Ht.
  - now apply addCountries_exclude_token with t.
Qed.

(** ** The filter loop *)

Lemma filterOne_Some m ports r x :
  filterOne m ports r = Some x →
  Fingerprint x = Fingerprint r ∧ Country x = Country r
  ∧ Reachable x = Reachable r
  ∧ has (excludeCountries m) (Country r) = false
  ∧ ((0 <? size (onlyCountries m))%nat = true →
     has (onlyCountries m) (Country r) = true)
  ∧ (ports = [] → x = r)
  ∧ (ports ≠ [] →
     OrAddresses x = narrowAddrs ports (OrAddresses r) ∧ OrAddresses x ≠ []).
Proof.
  unfold filterOne.
  destruct ((0 <? size (onlyCountries m))%nat) eqn:Ho;
    destruct (has (onlyCountries m) (Country r)) eqn:Hh;
    cbn [andb negb]; try discriminate;
    destruct (has (excludeCountries m) (Country r)) eqn:He; try discriminate;
    (destruct ports as [|p ports];
     [ cbn [length Nat.ltb Nat.leb]; intros [= <-]; repeat split; congruence
     | cbn [length Nat.ltb Nat.leb];
       destruct (narrowAddrs (p :: ports) (OrAddresses r)) as [|a l] eqn:Hn;
       cbn [length Nat.eqb]; [discriminate|];
       intros [= <-]; cbn [withAddrs Fingerprint Country Reachable OrAddresses];
       repeat split; congruence ]).
Qed.

Lemma filterAndSort_perm sortSlice relays rule ports :
  SortSliceSpec sortSlice →
  filterAndSortRelays sortSlice relays rule ports
  ≡ₚ filterRelays (parseCountries rule) ports relays.
Proof.
  intros Hs. unfold filterAndSortRelays.
  destruct (0 <? size (sortedCountries (parseCountries rule)))%nat;
    [apply Hs | reflexivity].
Qed.

(** Every survivor stems from an input relay that passed the loop body. *)
Lemma filterAndSort_elem sortSlice relays rule ports x :
  SortSliceSpec sortSlice →
  x ∈ filterAndSortRelays sortSlice relays rule ports →
  ∃ r, r ∈ relays ∧ filterOne (parseCountries rule) ports r = Some x.
Proof.
  intros Hs Hx. rewrite (filterAndSort_perm _ _ _ _ Hs) in Hx.
  unfold filterRelays in Hx. now apply list_elem_of_omap in Hx.
Qed.

(** ** Sorting *)

Section Sorting.

Context {A : Type} (less : A → A → bool).

Lemma insertBefore_perm x l : insertBefore less x l ≡ₚ x :: l.
Proof.
  induction l as [|y l IH]; cbn [insertBefore]; [reflexivity|].
  destruct (less y x); [|reflexivity].
  rewrite IH. apply Permutation_swap.
Qed.

Lemma insertionSort_perm l : insertionSort less l ≡ₚ l.
Proof.
  induction l as [|x l IH]; [reflexivity|].
  unfold insertionSort in *. cbn [foldr].
  now rewrite insertBefore_perm, IH.
Qed.

Hypothesis Hwo : weak_order less.

Lemma insertBefore_sorted x l :
  StronglySorted (λ a b, less b a = false) l →
  StronglySorted (λ a b, less b a = false) (insertBefore less x l).
Proof.
  destruct Hwo as (Hirr & Htr & Hneg).
  induction 1 as [|y l Hs IH Hall]; cbn [insertBefore].
  - repeat constructor.
  - destruct (less y x) eqn:Hyx.
    + constructor; [exact IH|].
      rewrite insertBefore_perm. constructor; [|exact Hall].
      destruct (less x y) eqn:Hxy; [|reflexivity].
      rewrite <- (Hirr y). symmetry. now apply Htr with x.
    + constructor; [now constructor|].
      constructor; [exact Hyx|].
      eapply Forall_impl; [exact Hall|].
      intros z Hz. now apply Hneg with y.
Qed.

Lemma insertionSort_sorted l :
  StronglySorted (λ a b, less b a = false) (insertionSort less l).
Proof.
  induction l as [|x l IH]; [constructor|].
  unfold insertionSort in *. cbn [foldr]. now apply insertBefore_sorted.
Qed.

End Sorting.

Lemma insertionSort_spec : SortSliceSpec insertionSort.
Proof.
  split.
  - intros less l. apply insertionSort_perm.
  - intros less l Hwo. now apply insertionSort_sorted.
Qed.

Lemma backwardSort_spec : SortSliceSpec backwardSort.
Proof.
  split.
  - intros less l. unfold backwardSort.
    rewrite insertionSort_perm. symmetry. apply Permutation_rev.
  - intros less l Hwo. now apply insertionSort_sorted.
Qed.

Lemma lessByCountry_weak_order sorted : weak_order (lessByCountry sorted).
Proof.
  unfold lessByCountry. repeat split.
  - intros a. apply Nat.ltb_irrefl.
  - intros a b c H1%Nat.ltb_lt H2%Nat.ltb_lt. apply Nat.ltb_lt. lia.
  - intros a b c H1%Nat.ltb_ge H2%Nat.ltb_ge. apply Nat.ltb_ge. lia.
Qed.

(** The ranks stored by the rule are positions of its tokens. *)
Lemma addCountries_sorted_bound tokens i m c k :
  (∀ c k, sortedCountries m !! c = Some k → (k < i)%nat) →
  sortedCountries (addCountries i tokens m) !! c = Some k →
  (k < i + length tokens)%nat.
Proof.
  revert i m; induction tokens as [|t tokens IH]; intros i m Hm Hk.
  - cbn [addCountries] in Hk. apply Hm in Hk. cbn [length]. lia.
  - cbn [addCountries] in Hk. apply IH in Hk; [cbn [length]; lia|].
    intros c' k'. unfold addCountry.
    destruct (HasPrefix (TrimSpace t) "!"); [intros Hc%Hm; lia|].
    destruct (HasPrefix (TrimSpace t) "-"); [intros Hc%Hm; lia|].
    cbn [sortedCountries]. rewrite lookup_insert.
    case_decide; [intros [= <-]; lia | intros Hc%Hm; lia].
Qed.

Lemma parseCountries_sorted_bound rule c k :
  sortedCountries (parseCountries rule) !! c = Some k →
  (k < length (Split rule ","))%nat.
Proof.
  unfold parseCountries. destruct (String.eqb rule "").
  - cbn [noMaps sortedCountries]. now rewrite lookup_empty.
  - intros H. eapply (addCountries_sorted_bound _ 0) in H; [exact H|].
    intros c' k'. cbn [noMaps sortedCountries]. now rewrite lookup_empty.
Qed.

(** ** One batch: the appends never reach [chunk] *)

Lemma appendReachable_frame n heap res :
  (n ≤ RelayPtr res)%nat →
  take n (appendReachable heap res) = take n heap.
Proof.
  intros H. unfold appendReachable.
  destruct (heap !! RelayPtr res); [|reflexivity].
  now apply take_insert_ge.
Qed.

(** Whatever arrives on the channel, in whatever order: as long as every
    pointer is one to a loop variable, the cells of [chunk] are left as
    they were. *)
Lemma scan_drain n heap results :
  Forall (λ res, (n ≤ RelayPtr res)%nat) results →
  take n (drain heap results) = take n heap.
Proof.
  unfold drain. revert heap.
  induction results as [|res results IH]; intros heap H; [reflexivity|].
  apply Forall_cons in H as [H1 H2]. cbn [foldl].
  now rewrite IH, appendReachable_frame.
Qed.

Lemma spawned_ptrs perIteration n k chunk :
  Forall (λ res, (n ≤ RelayPtr res)%nat) (spawned perIteration n k chunk).
Proof.
  revert k; induction chunk as [|relay rest IH]; intros k; cbn [spawned].
  - constructor.
  - apply Forall_app. split; [|apply IH].
    apply Forall_map, Forall_true. intros addr. cbn [RelayPtr].
    unfold loopVarCell. destruct perIteration; lia.
Qed.

Lemma Forall_filter_weak {A} (P : A → Prop) (f : A → bool) l :
  Forall P l → Forall P (List.filter f l).
Proof.
  induction 1 as [|x l Hx Hl IH]; cbn [List.filter]; [constructor|].
  destruct (f x); [now constructor | exact IH].
Qed.

(** The candidates a batch accepts are those of [chunk] whose [Reachable]
    was non-empty before the batch; the dials have no part in it. *)
Lemma probeBatch_accepted perIteration dial chunk d s heap accepted :
  probeBatch perIteration dial chunk = BatchDone d s heap accepted →
  accepted = List.filter isReachable chunk.
Proof.
  unfold probeBatch.
  destruct (10 * length chunk <? _)%nat; [discriminate|].
  intros [= _ _ _ <-]. f_equal.
  rewrite scan_drain.
  - apply take_app_length.
  - apply Forall_filter_weak, spawned_ptrs.
Qed.

Lemma filter_isReachable_nil l :
  Forall (λ r, Reachable r = []) l → List.filter isReachable l = [].
Proof.
  induction 1 as [|r l Hr Hl IH]; [reflexivity|].
  cbn [List.filter]. unfold isReachable at 1. now rewrite Hr.
Qed.

(** ** One batch: dials, successes and the full channel *)

Lemma filter_map_comm {A B} (f : B → bool) (g : A → B) (l : list A) :
  List.filter f (map g l) = map g (List.filter (λ a, f (g a)) l).
Proof.
  induction l as [|a l IH]; [reflexivity|].
  cbn [map List.filter]. destruct (f (g a)); cbn [map]; now rewrite IH.
Qed.

Lemma spawned_addresses perIteration n k chunk :
  map Address (spawned perIteration n k chunk) = flat_map OrAddresses chunk.
Proof.
  revert k; induction chunk as [|r rest IH]; intros k; [reflexivity|].
  cbn [spawned flat_map]. rewrite map_app, IH. f_equal.
  rewrite map_map. cbn [Address]. apply map_id.
Qed.

Lemma successes_length perIteration (dial : string → bool) n k chunk :
  length (List.filter (λ g, dial (Address g)) (spawned perIteration n k chunk))
  = length (List.filter dial (flat_map OrAddresses chunk)).
Proof.
  rewrite <- (spawned_addresses perIteration n k chunk), filter_map_comm.
  now rewrite length_map.
Qed.

Lemma probeBatch_deadlock perIteration dial chunk :
  isDeadlock (probeBatch perIteration dial chunk) = true
  ↔ (10 * length chunk
     < length (List.filter dial (flat_map OrAddresses chunk)))%nat.
Proof.
  unfold probeBatch. rewrite successes_length.
  destruct (Nat.ltb_spec (10 * length chunk)
              (length (List.filter dial (flat_map OrAddresses chunk))));
    cbn [isDeadlock]; split; (lia || congruence).
Qed.

Lemma flat_map_length_bound (chunk : list Relay) :
  Forall (λ r, (length (OrAddresses r) ≤ 10)%nat) chunk →
  (length (flat_map OrAddresses chunk) ≤ 10 * length chunk)%nat.
Proof.
  induction 1 as [|r l Hr Hl IH]; cbn [flat_map length]; [lia|].
  rewrite length_app. lia.
Qed.

(** ** The batch loop *)

Lemma chunk_slice (relays : list Relay) (n k : nat) (numRelays : Z) :
  numRelays = Z.of_nat n → (k * n < length relays)%nat →
  let i := Z.of_nat (k * n) in
  let end_ := (i + numRelays)%Z in
  let end_ := if (end_ >? len relays)%Z then len relays else end_ in
  take (Z.to_nat (end_ - i)%Z) (drop (Z.to_nat i) relays) = chunkAt relays n k.
Proof.
  intros -> Hlt. cbv zeta. unfold chunkAt, len.
  rewrite Nat2Z.id.
  destruct (Z.gtb_spec (Z.of_nat (k * n) + Z.of_nat n) (Z.of_nat (length relays)))
    as [Hgt|Hle].
  - rewrite !take_ge; [reflexivity| |]; rewrite length_drop; lia.
  - f_equal. lia.
Qed.

Section Loop.

Variables (perIteration : bool) (dial : string → bool).
Variables (relays : list Relay) (numRelays goal : Z) (n : nat).
Hypothesis Hn : numRelays = Z.of_nat n.
Hypothesis Hpos : (0 < n)%nat.

Lemma batchLoop_inv fuel k st stop st' :
  attempts st = k →
  workingRelays st = acceptedAfter relays n k →
  (k ≤ length relays)%nat → (length relays < fuel + k)%nat →
  batchLoop fuel perIteration dial relays numRelays goal (Z.of_nat (k * n)) st
  = (stop, st') →
  stop ≠ Running ∧ stop ≠ Panicked ∧ (k ≤ attempts st')%nat
  ∧ (stop = Finished →
     workingRelays st' = acceptedAfter relays n (attempts st')
     ∧ ((goal ≤ len (workingRelays st'))%Z
        ∨ (length relays ≤ attempts st' * n)%nat))
  ∧ (stop = Deadlocked →
     (k < attempts st')%nat
     ∧ workingRelays st' = acceptedAfter relays n (attempts st' - 1))
  ∧ (∀ j, (k ≤ j < attempts st')%nat →
     (len (acceptedAfter relays n j) < goal)%Z ∧ (j * n < length relays)%nat).
Proof.
  revert k st. induction fuel as [|fuel IH]; intros k st Hk Hw Hle Hfuel; [lia|].
  cbn [batchLoop].
  destruct (Z.ltb_spec (Z.of_nat (k * n)) (len relays)) as [Hi|Hi];
    [destruct (Z.ltb_spec (len (workingRelays st)) goal) as [Hg|Hg]|];
    cbn [andb].
  - unfold len in Hi. apply Nat2Z.inj_lt in Hi.
    pose proof (chunk_slice relays n k numRelays Hn Hi) as Hc. cbv zeta in Hc.
    set (e := if (Z.of_nat (k * n) + numRelays >? len relays)%Z
              then len relays else (Z.of_nat (k * n) + numRelays)%Z) in *.
    assert (He : (e <? Z.of_nat (k * n))%Z = false).
    { apply Z.ltb_ge. subst e. unfold len.
      destruct (_ >? _)%Z; lia. }
    assert (Hz : (numRelays =? 0)%Z = false) by (apply Z.eqb_neq; lia).
    rewrite He, Hz. cbn [orb]. rewrite Hc.
    destruct (probeBatch perIteration dial (chunkAt relays n k))
      as [d s|d s heap acc] eqn:Hb.
    + intros [= <- <-]. cbn [attempts workingRelays].
      split; [discriminate|]. split; [discriminate|]. split; [lia|].
      split; [discriminate|]. split.
      { intros _. split; [lia|].
        rewrite Hk. replace (S k - 1)%nat with k by lia. exact Hw. }
      intros j Hj. assert (j = k) as -> by lia.
      split; [now rewrite <- Hw | exact Hi].
    + apply probeBatch_accepted in Hb as ->.
      replace (Z.of_nat (k * n) + numRelays)%Z with (Z.of_nat (S k * n)) by lia.
      intros Hrun. apply IH in Hrun; cbn [attempts workingRelays].
      2: lia. 2: cbn [acceptedAfter]; now rewrite Hw. 2: nia. 2: lia.
      destruct Hrun as (H1 & H2 & H3 & H4 & H5 & H6).
      split; [exact H1|]. split; [exact H2|]. split; [lia|].
      split; [exact H4|]. split.
      { intros Hd. destruct (H5 Hd) as [Ha Hb]. split; [lia | exact Hb]. }
      intros j Hj. destruct (decide (j = k)) as [->|Hne].
      { split; [now rewrite <- Hw | exact Hi]. }
      apply H6. lia.
  - intros [= <- <-]. rewrite Hk.
    split; [discriminate|]. split; [discriminate|]. split; [lia|].
    split; [intros _; split; [exact Hw | now left]|].
    split; [discriminate|]. intros j Hj. lia.
  - intros [= <- <-]. rewrite Hk. unfold len in Hi.
    split; [discriminate|]. split; [discriminate|]. split; [lia|].
    split; [intros _; split; [exact Hw | right; lia]|].
    split; [discriminate|]. intros j Hj. lia.
Qed.

End Loop.

(** ** Address parsing *)

Lemma HasPrefix_colon_head c s1 s2 :
  HasPrefix (String c s1) ":" = HasPrefix (String c s2) ":".
Proof.
  unfold HasPrefix. cbn [String.prefix].
  destruct (ascii_dec ":" c); [|reflexivity]. now destruct s1, s2.
Qed.

Lemma Split_go_one_colon host port cur :
  Contains host ":" = false → Contains port ":" = false →
  Split_go ":" 0 cur (host +:+ ":" +:+ port)
  = [string_of_list_ascii (rev cur) +:+ host; port].
Proof.
  intros Hh Hp. revert cur; induction host as [|c host IH]; intros cur.
  - rewrite append_nil_l, append_empty_r.
    change (":" +:+ port) with (String ":" port). cbn [Split_go].
    replace (HasPrefix (String ":" port) ":") with true
      by (unfold HasPrefix; cbn [String.prefix]; now destruct port).
    f_equal. cbn [String.length Nat.sub].
    now rewrite Split_go_no_colon.
  - cbn [Contains] in Hh. apply orb_false_iff in Hh as [Hc Hh].
    rewrite append_cons. cbn [Split_go].
    rewrite (HasPrefix_colon_head c _ host), Hc, (IH Hh).
    f_equal. cbn [rev]. now rewrite string_of_list_ascii_snoc, append_assoc.
Qed.

(** A plain [host:port] pair is split at its colon. *)
Lemma parseAddress_plain_pair host port :
  Contains host ":" = false → Contains port ":" = false →
  HasPrefix host "[" = false →
  parseAddress (host +:+ ":" +:+ port) = (host, port).
Proof.
  intros Hh Hp Hb. unfold parseAddress, Split.
  rewrite Split_go_one_colon by assumption.
  cbn [length Nat.ltb Nat.leb nth Nat.sub rev string_of_list_ascii].
  now rewrite append_nil_l, Hb.
Qed.

(** C3. On the bracketed IPv6 literal ["[2001:db8::1]:443"] the port is
    ["443"], but the host that [parseAddress] returns keeps the closing
    bracket: the slice [addr[1:portIdx]] ends at the colon, one byte after
    the literal. *)
Theorem parseAddress_ipv6_keeps_bracket :
  parseAddress "[2001:db8::1]:443" = ("2001:db8::1]", "443")
  ∧ parseAddress "1.2.3.4:443" = ("1.2.3.4", "443").
Proof. split; reflexivity. Qed.

(** ** Port filter *)

Lemma portMatches_no_colon ports addr :
  "" ∉ ports → Contains addr ":" = false → portMatches ports addr = false.
Proof.
  intros Hports Haddr. unfold portMatches.
  rewrite parseAddress_no_colon by assumption. cbn [snd].
  induction ports as [|p ports IH]; [reflexivity|].
  cbn [existsb]. apply not_elem_of_cons in Hports as [Hp Hports].
  rewrite (IH Hports), orb_false_r.
  apply String.eqb_neq. congruence.
Qed.

Lemma narrowAddrs_no_colon ports addrs :
  "" ∉ ports → Forall (λ addr, Contains addr ":" = false) addrs →
  narrowAddrs ports addrs = [].
Proof.
  intros Hports. unfold narrowAddrs.
  induction 1 as [|addr addrs Ha Hall IH]; [reflexivity|].
  cbn [List.filter]. now rewrite portMatches_no_colon.
Qed.

(** C10, as the code has it.  An address without colon parses to the pair
    of empty strings.  Under a port filter that is non-empty and does not
    list the empty string, such an address matches no port, and a
    fingerprint whose relays only have such addresses does not survive
    the filter. *)
Theorem no_colon_address_dropped sortSlice relays rule ports :
  SortSliceSpec sortSlice → ports ≠ [] → "" ∉ ports →
  (∀ addr, Contains addr ":" = false →
     parseAddress addr = ("", "") ∧ portMatches ports addr = false)
  ∧ (∀ fp,
       (∀ r, r ∈ relays → Fingerprint r = fp →
          Forall (λ addr, Contains addr ":" = false) (OrAddresses r)) →
       ∀ x, x ∈ filterAndSortRelays sortSlice relays rule ports →
          Fingerprint x ≠ fp).
Proof.
  intros Hs Hne Hports. split.
  - intros addr Haddr. split.
    + now apply parseAddress_no_colon.
    + now apply portMatches_no_colon.
  - intros fp Hfp x Hx Hxfp.
    apply filterAndSort_elem in Hx as (r & Hr & Hone); [|exact Hs].
    apply filterOne_Some in Hone as (Hf & _ & _ & _ & _ & _ & Hnarrow).
    destruct (Hnarrow Hne) as [Heq Hnil]. apply Hnil. rewrite Heq.
    apply narrowAddrs_no_colon; [exact Hports|].
    apply Hfp; [exact Hr | congruence].
Qed.

Lemma no_colon_address_dropped_witness :
  parseAddress "localhost" = ("", "")
  ∧ portMatches ["443"; "9001"] "localhost" = false
  ∧ filterAndSortRelays insertionSort
      [mkRelay "F1" ["localhost"] "de" [];
       mkRelay "F2" ["1.2.3.4:443"] "de" []] "" ["443"; "9001"]
    = [mkRelay "F2" ["1.2.3.4:443"] "de" []].
Proof.
  destruct (no_colon_address_dropped insertionSort
              [mkRelay "F1" ["localhost"] "de" [];
               mkRelay "F2" ["1.2.3.4:443"] "de" []] "" ["443"; "9001"]
              insertionSort_spec) as [Ha _].
  - discriminate.
  - intros H. apply elem_of_cons in H as [H|H]; [discriminate|].
    apply list_elem_of_singleton in H. discriminate.
  - destruct (Ha "localhost" eq_refl) as [H1 H2].
    split; [exact H1|]. split; [exact H2|]. vm_compute. reflexivity.
Defined.

(** C10, as stated, fails when the port list holds an empty string, as
    [-p "443,"] produces: the empty parsed port then matches, and the
    relay is kept with its address. *)
Lemma no_colon_address_kept :
  portMatches ["443"; ""] "localhost" = true
  ∧ filterAndSortRelays insertionSort
      [mkRelay "F1" ["localhost"] "de" []] "" (Split "443," ",")
    = [mkRelay "F1" ["localhost"] "de" []].
Proof. split; vm_compute; reflexivity. Qed.

(** ** Excluded countries *)

(** C9. A relay whose country is named in the rule both as [!c] and as
    [-c] is dropped: the test on [excludeCountries] is made whatever
    [onlyCountries] holds. *)
Theorem excluded_wins_over_exclusive sortSlice relays rule ports c t1 t2 :
  SortSliceSpec sortSlice →
  t1 ∈ Split rule "," → TrimSpace t1 = "!" +:+ c →
  t2 ∈ Split rule "," → TrimSpace t2 = "-" +:+ c →
  ∀ x, x ∈ filterAndSortRelays sortSlice relays rule ports → Country x ≠ c.
Proof.
  intros Hs _ _ Hin Ht x Hx Hc.
  apply filterAndSort_elem in Hx as (r & Hr & Hone); [|exact Hs].
  apply filterOne_Some in Hone as (_ & Hcountry & _ & Hex & _).
  rewrite <- Hcountry, Hc in Hex.
  now rewrite (parseCountries_exclude rule c t2 Hin Ht) in Hex.
Qed.

Lemma excluded_wins_over_exclusive_witness :
  Forall (λ x, Country x ≠ "ru")
    (filterAndSortRelays insertionSort
       [mkRelay "F1" ["1.2.3.4:443"] "ru" [];
        mkRelay "F2" ["5.6.7.8:443"] "us" []] "!ru, -ru,!us" []).
Proof.
  apply Forall_forall.
  apply (excluded_wins_over_exclusive insertionSort _ "!ru, -ru,!us" []
           "ru" "!ru" " -ru" insertionSort_spec).
  - vm_compute. apply list_elem_of_here.
  - reflexivity.
  - vm_compute. apply list_elem_of_further, list_elem_of_here.
  - reflexivity.
Defined.

(** ** Order of the survivors *)

Lemma StronglySorted_mono {A} (R R' : A → A → Prop) l :
  (∀ a b, R a b → R' a b) → StronglySorted R l → StronglySorted R' l.
Proof.
  intros Himp. induction 1 as [|x l Hs IH Hall]; constructor; [exact IH|].
  eapply Forall_impl; [exact Hall | apply Himp].
Qed.

Lemma StronglySorted_lookup {A} (R : A → A → Prop) l i j a b :
  StronglySorted R l → (i < j)%nat →
  l !! i = Some a → l !! j = Some b → R a b.
Proof.
  intros Hs. revert i j. induction Hs as [|x l Hs IH Hall]; intros i j Hij Hi Hj.
  - discriminate.
  - destruct j as [|j]; [lia|]. destruct i as [|i].
    + injection Hi as <-. cbn in Hj.
      rewrite Forall_lookup in Hall. now apply (Hall j).
    + cbn in Hi, Hj. apply (IH i j); [lia | assumption ..].
Qed.

Lemma manyTokens_maps :
  parseCountries manyTokens
  = mkMaps ∅ ∅ (<["ZZ" := 1001%nat]> ∅).
Proof. vm_compute. reflexivity. Qed.

(** C4, as the code has it.  When the rule ranks some country, the result
    is a rearrangement of the survivors in ascending order of rank, a
    country absent from the map counting as rank 1000; the order among
    survivors of equal rank is whatever [sort.Slice] leaves.  When the
    rule has at most 1000 tokens, every ranked survivor comes before every
    unranked one. *)
Theorem survivors_sorted_by_rank sortSlice relays rule ports :
  SortSliceSpec sortSlice →
  (0 < size (sortedCountries (parseCountries rule)))%nat →
  let sorted := sortedCountries (parseCountries rule) in
  let out := filterAndSortRelays sortSlice relays rule ports in
  out ≡ₚ filterRelays (parseCountries rule) ports relays
  ∧ StronglySorted (λ a b, (rankOf sorted a ≤ rankOf sorted b)%nat) out
  ∧ ((length (Split rule ",") ≤ 1000)%nat →
     ∀ i j a b, out !! i = Some a → out !! j = Some b →
       sorted !! Country a = None → is_Some (sorted !! Country b) →
       (j < i)%nat).
Proof.
  intros Hs Hsize sorted out.
  assert (Hsorted :
    StronglySorted (λ a b, (rankOf sorted a ≤ rankOf sorted b)%nat) out).
  { subst out. unfold filterAndSortRelays.
    apply Nat.ltb_lt in Hsize. rewrite Hsize.
    eapply StronglySorted_mono;
      [|apply Hs, (lessByCountry_weak_order sorted)].
    intros a b H. unfold lessByCountry in H. now apply Nat.ltb_ge in H. }
  split; [now apply filterAndSort_perm|]. split; [exact Hsorted|].
  intros Hlen i j a b Hi Hj Ha [k Hb].
  assert (Hra : rankOf sorted a = 1000%nat) by (unfold rankOf; now rewrite Ha).
  assert (Hrb : (rankOf sorted b < 1000)%nat).
  { unfold rankOf. rewrite Hb.
    apply parseCountries_sorted_bound in Hb. lia. }
  destruct (Nat.lt_trichotomy i j) as [Hlt|[->|Hgt]]; [|congruence|exact Hgt].
  pose proof (StronglySorted_lookup _ _ _ _ _ _ Hsorted Hlt Hi Hj) as Hle.
  cbv beta in Hle. lia.
Qed.

Lemma survivors_sorted_by_rank_witness :
  filterAndSortRelays insertionSort
    [mkRelay "A" ["1.2.3.4:443"] "de" []; mkRelay "B" ["5.6.7.8:443"] "us" []]
    "us, -ru" []
  ≡ₚ [mkRelay "A" ["1.2.3.4:443"] "de" []; mkRelay "B" ["5.6.7.8:443"] "us" []].
Proof.
  destruct (survivors_sorted_by_rank insertionSort
              [mkRelay "A" ["1.2.3.4:443"] "de" [];
               mkRelay "B" ["5.6.7.8:443"] "us" []] "us, -ru" []
              insertionSort_spec) as [Hperm _].
  - vm_compute. lia.
  - exact Hperm.
Defined.

(** C4, as stated, fails twice.  First: with the 1002-token rule, [ZZ] has
    rank 1001 and the unranked relay, at rank 1000, is placed before the
    ranked one by every sort that meets the contract of [sort.Slice].
    Second: that contract admits a sort that swaps two survivors of equal
    rank. *)
Lemma stable_rank_order_refuted :
  (let relays := [mkRelay "U" ["1.2.3.4:443"] "" [];
                  mkRelay "R" ["5.6.7.8:443"] "ZZ" []] in
   let m := parseCountries manyTokens in
   (0 < size (sortedCountries m))%nat
   ∧ stableSortByRank (sortedCountries m) (filterRelays m [] relays)
     = [mkRelay "R" ["5.6.7.8:443"] "ZZ" []; mkRelay "U" ["1.2.3.4:443"] "" []]
   ∧ ∀ sortSlice, SortSliceSpec sortSlice →
       filterAndSortRelays sortSlice relays manyTokens []
       = [mkRelay "U" ["1.2.3.4:443"] "" []; mkRelay "R" ["5.6.7.8:443"] "ZZ" []])
  ∧ (let relays := [mkRelay "A" ["1.2.3.4:443"] "de" [];
                    mkRelay "B" ["5.6.7.8:443"] "de" []] in
     let m := parseCountries "us" in
     SortSliceSpec backwardSort
     ∧ (0 < size (sortedCountries m))%nat
     ∧ stableSortByRank (sortedCountries m) (filterRelays m [] relays) = relays
     ∧ filterAndSortRelays backwardSort relays "us" []
       = [mkRelay "B" ["5.6.7.8:443"] "de" []; mkRelay "A" ["1.2.3.4:443"] "de" []]).
Proof.
  split; cbv zeta.
  - rewrite manyTokens_maps. split; [vm_compute; lia|].
    split; [vm_compute; reflexivity|].
    intros sortSlice [Hperm Hsorted]. unfold filterAndSortRelays.
    rewrite manyTokens_maps. cbn [sortedCountries].
    replace (0 <? size (<["ZZ" := 1001%nat]> (∅ : gmap string nat)))%nat
      with true by (vm_compute; reflexivity).
    set (less := lessByCountry (<["ZZ" := 1001%nat]> ∅)).
    set (l := filterRelays _ _ _).
    assert (Hl : l = [mkRelay "U" ["1.2.3.4:443"] "" [];
                      mkRelay "R" ["5.6.7.8:443"] "ZZ" []])
      by (vm_compute; reflexivity).
    specialize (Hperm less l).
    specialize (Hsorted less l (lessByCountry_weak_order _)).
    clearbody l. subst l. symmetry in Hperm.
    apply Permutation_length_2_inv in Hperm as [Hout|Hout]; [exact Hout|].
    rewrite Hout in Hsorted. apply StronglySorted_inv in Hsorted as [_ Hall].
    apply Forall_inv in Hall. vm_compute in Hall. discriminate Hall.
  - split; [exact backwardSort_spec|].
    split; [vm_compute; lia|]. split; vm_compute; reflexivity.
Qed.

(** ** The scheduler *)

(** The fuel that [main] gives the loop is enough for every batch size:
    a batch size that is not positive faults in the first iteration. *)
Lemma batchLoop_total perIteration dial relays numRelays goal stop st :
  batchLoop (S (length relays)) perIteration dial relays numRelays goal 0 sched0
  = (stop, st) →
  stop ≠ Running.
Proof.
  destruct (Z.lt_ge_cases 0 numRelays) as [Hpos|Hneg].
  - intros Hrun.
    change 0%Z with (Z.of_nat (0 * Z.to_nat numRelays)) in Hrun.
    apply (batchLoop_inv perIteration dial relays numRelays goal
             (Z.to_nat numRelays)) in Hrun; [tauto|lia|lia|reflexivity
                                            |reflexivity|lia|lia].
  - cbn [batchLoop]. destruct (_ && _); [|now intros [= <- _]].
    replace ((_ <? 0)%Z || (numRelays =? 0)%Z) with true;
      [now intros [= <- _]|].
    symmetry. apply orb_true_iff.
    destruct (Z.eq_dec numRelays 0) as [->|Hne]; [now right|left].
    apply Z.ltb_lt. destruct (_ >? _)%Z eqn:Hgt; [|lia].
    apply Z.gtb_lt in Hgt. unfold len in *. lia.
Qed.






(** ** Acceptance *)

Lemma batchLoop_working_nil fuel perIteration dial relays numRelays goal i st
  stop st' :
  Forall (λ r, Reachable r = []) relays →
  workingRelays st = [] →
  batchLoop fuel perIteration dial relays numRelays goal i st = (stop, st') →
  workingRelays st' = [].
Proof.
  intros Hall. revert i st.
  induction fuel as [|fuel IH]; intros i st Hw; cbn [batchLoop].
  - now intros [= _ <-].
  - destruct (_ && _); [|now intros [= _ <-]].
    destruct (_ || _); [now intros [= _ <-]|].
    destruct (probeBatch _ _ _) as [d s|d s heap acc] eqn:Hb.
    + now intros [= _ <-].
    + apply probeBatch_accepted in Hb as ->. apply IH.
      cbn [workingRelays]. rewrite Hw, filter_isReachable_nil; [reflexivity|].
      now apply Forall_take, Forall_drop.
Qed.

(** X22. Whatever the dials return, a directory whose records carry no
    [Reachable] field yields an empty accepted set, and nothing is handed
    to [generateOutput]. *)
Lemma main_accepts_nothing sortSlice cfg env relays :
  SortSliceSpec sortSlice →
  fetched env = Some relays → Forall (λ r, Reachable r = []) relays →
  workingRelays (sched (main sortSlice cfg env)) = []
  ∧ output (main sortSlice cfg env) = None.
Proof.
  intros Hs Hf Hall. unfold main. rewrite Hf.
  set (filtered := filterAndSortRelays _ _ _ _).
  assert (Hfil : Forall (λ r, Reachable r = []) filtered).
  { apply Forall_forall. intros x Hx.
    apply filterAndSort_elem in Hx as (r & Hr & Hone); [|exact Hs].
    apply filterOne_Some in Hone as (_ & _ & Hreach & _).
    rewrite Hreach. rewrite Forall_forall in Hall. now apply Hall. }
  destruct (length filtered =? 0)%nat; [now split|].
  destruct (bridgesFileOpens env); cbn [negb]; [|now split].
  destruct (batchLoop _ _ _ _ _ _ _ _) as [stop st] eqn:Hrun.
  apply batchLoop_working_nil in Hrun; [|exact Hfil|reflexivity].
  destruct stop; cbn [sched output]; try (now split).
  rewrite Hrun. now split.
Qed.

(** C1. One candidate with one address, and the dial succeeds.  The line
    reaches [_bridges.txt], the result reaches the channel, and the append
    updates the loop variable [relay], a copy; the element of [chunk] that
    the scan reads stays without reachable address.  The accepted set is
    empty, nothing is handed to [generateOutput], and the run reports that
    no reachable relay was found.  This holds with either loop-variable
    semantics. *)
Theorem successful_dial_not_accepted (perIteration : bool) :
  main insertionSort (mkConfig 30 5 "" "" true "")
    (mkEnv perIteration (Some oneRelay) (λ _, true) true PrefsMissing)
  = mkRun ExitOk
      (mkSched 1 ["1.2.3.4:443"] ["1.2.3.4:443 ABCD" +:+ nl] [])
      None ["No reachable relays found."].
Proof. destruct perIteration; vm_compute; reflexivity. Qed.

(** ** Startup and end of the run *)

(** C6. When no relay passes the filter, [main] stops with [log.Fatal]
    before the sink is opened and before any address is dialled. *)
Theorem no_candidates_is_fatal sortSlice cfg env relays :
  fetched env = Some relays →
  filterAndSortRelays sortSlice relays (preferredCountry cfg)
    (if String.eqb (ports cfg) "" then [] else Split (ports cfg) ",") = [] →
  main sortSlice cfg env
  = mkRun (ExitFatal "No relays match the specified criteria") sched0 None
      ["No relays match the specified criteria"]
  ∧ dialed (sched (main sortSlice cfg env)) = []
  ∧ sink (sched (main sortSlice cfg env)) = []
  ∧ attempts (sched (main sortSlice cfg env)) = 0%nat.
Proof.
  intros Hf Hnil.
  assert (Hm : main sortSlice cfg env
    = mkRun (ExitFatal "No relays match the specified criteria") sched0 None
        ["No relays match the specified criteria"]).
  { unfold main. now rewrite Hf, Hnil. }
  rewrite Hm. repeat split.
Qed.

Lemma no_candidates_is_fatal_witness :
  exit (main insertionSort (mkConfig 30 5 "!us" "" false "")
          (mkEnv true (Some oneRelay) (λ _, true) true PrefsMissing))
  = ExitFatal "No relays match the specified criteria".
Proof.
  rewrite (proj1 (no_candidates_is_fatal insertionSort
                    (mkConfig 30 5 "!us" "" false "")
                    (mkEnv true (Some oneRelay) (λ _, true) true PrefsMissing)
                    oneRelay eq_refl ltac:(vm_compute; reflexivity))).
  reflexivity.
Defined.

(** C7. When the loop ends with an empty accepted set, [main] returns
    normally: nothing is written, no error is raised, and the log says
    [No reachable relays found.] *)
Theorem no_reachable_is_success sortSlice cfg env relays st :
  fetched env = Some relays →
  let filtered :=
    filterAndSortRelays sortSlice relays (preferredCountry cfg)
      (if String.eqb (ports cfg) "" then [] else Split (ports cfg) ",") in
  filtered ≠ [] → bridgesFileOpens env = true →
  batchLoop (S (length filtered)) (perIteration env) (dial env) filtered
    (numRelays cfg) (goal cfg) 0 sched0 = (Finished, st) →
  workingRelays st = [] →
  main sortSlice cfg env = mkRun ExitOk st None ["No reachable relays found."].
Proof.
  intros Hf filtered Hne Hopen Hrun Hw.
  assert (Hlen : (length filtered =? 0)%nat = false)
    by (destruct filtered; [congruence | reflexivity]).
  unfold filtered in *. unfold main.
  rewrite Hf, Hlen, Hopen. cbn [negb].
  rewrite Hrun, Hw. reflexivity.
Qed.

Lemma no_reachable_is_success_witness :
  main insertionSort (mkConfig 30 5 "" "" true "")
    (mkEnv true (Some oneRelay) (λ _, false) true PrefsMissing)
  = mkRun ExitOk (mkSched 1 ["1.2.3.4:443"] [] []) None
      ["No reachable relays found."].
Proof.
  apply (no_reachable_is_success insertionSort
           (mkConfig 30 5 "" "" true "")
           (mkEnv true (Some oneRelay) (λ _, false) true PrefsMissing)
           oneRelay).
  - reflexivity.
  - vm_compute. discriminate.
  - reflexivity.
  - vm_compute. reflexivity.
  - reflexivity.
Defined.

(** ** The formatter *)

Lemma bridgeLines_pairs prefix workingRelays tail :
  bridgeLines prefix workingRelays +:+ tail
  = foldr (λ p acc, bridgeLine prefix p.1 p.2 +:+ acc) tail
      (pairsOf workingRelays).
Proof.
  induction workingRelays as [|r rest IH]; [reflexivity|].
  cbn [bridgeLines pairsOf flat_map]. rewrite foldr_app.
  fold (pairsOf rest). rewrite <- IH.
  induction (Reachable r) as [|addr addrs IHa]; [reflexivity|].
  cbn [foldr map fst snd]. now rewrite append_assoc, IHa.
Qed.

Lemma written_torrc workingRelays prefsjs file :
  written (generateOutput workingRelays true prefsjs file)
  = bridgeLines "Bridge " workingRelays +:+ "UseBridges 1" +:+ nl.
Proof.
  unfold generateOutput.
  destruct (String.eqb prefsjs ""); [reflexivity|]. now destruct file.
Qed.

(** C8. In torrc mode the text written to the output is one line
    [Bridge <address> <fingerprint>] per pair, in input order, then the
    line [UseBridges 1]; for the single pair of the example it is exactly
    the text of the claim. *)
Theorem torrc_output workingRelays prefsjs file :
  written (generateOutput workingRelays true prefsjs file)
  = foldr (λ p acc, ("Bridge " +:+ p.1 +:+ " " +:+ p.2 +:+ nl) +:+ acc)
      ("UseBridges 1" +:+ nl) (pairsOf workingRelays)
  ∧ written (generateOutput [mkRelay "ABCD" ["1.2.3.4:443"] "" ["1.2.3.4:443"]]
               true "" PrefsMissing)
    = "Bridge 1.2.3.4:443 ABCD" +:+ nl +:+ "UseBridges 1" +:+ nl.
Proof.
  split; [|reflexivity].
  rewrite written_torrc. apply bridgeLines_pairs.
Qed.

(** C5. The index written into a [bridge_strings] line is the position of
    the relay in [workingRelays], not a count of the lines: the two
    addresses of one relay get the same index, and the file holds the key
    [bridge_strings.0] twice. *)
Theorem prefs_index_is_relay_index :
  (∀ i fp addrs country a1 a2 rest,
     prefEntries i (mkRelay fp addrs country [a1; a2] :: rest)
     = (i, a1, fp) :: (i, a2, fp) :: prefEntries (S i) rest)
  ∧ prefsWritten
      (generateOutput
         [mkRelay "ABCD" ["1.2.3.4:443"; "[2001:db8::1]:443"] "de"
            ["1.2.3.4:443"; "[2001:db8::1]:443"];
          mkRelay "EF01" ["5.6.7.8:9001"] "us" ["5.6.7.8:9001"]]
         false "prefs.js" (PrefsContent ""))
    = Some (Join
        [""; 
         "user_pref(" +:+ dq +:+ "torbrowser.settings.bridges.bridge_strings.0"
           +:+ dq +:+ ", " +:+ dq +:+ "1.2.3.4:443 ABCD" +:+ dq +:+ ");";
         "user_pref(" +:+ dq +:+ "torbrowser.settings.bridges.bridge_strings.0"
           +:+ dq +:+ ", " +:+ dq +:+ "[2001:db8::1]:443 ABCD" +:+ dq +:+ ");";
         "user_pref(" +:+ dq +:+ "torbrowser.settings.bridges.bridge_strings.1"
           +:+ dq +:+ ", " +:+ dq +:+ "5.6.7.8:9001 EF01" +:+ dq +:+ ");";
         "user_pref(" +:+ dq +:+ "torbrowser.settings.bridges.enabled"
           +:+ dq +:+ ", true);";
         "user_pref(" +:+ dq +:+ "torbrowser.settings.bridges.source"
           +:+ dq +:+ ", 2);"] nl).
Proof. split; [reflexivity | vm_compute; reflexivity]. Qed.

(** ** Sample evaluations *)

Example Split_commas : Split "a,,b," "," = ["a"; ""; "b"; ""].
Proof. reflexivity. Qed.

Example TrimSpace_token : TrimSpace "  US	 " = "US".
Proof. reflexivity. Qed.

Example filter_by_port_and_rank :
  filterAndSortRelays insertionSort
    [mkRelay "A" ["1.2.3.4:443"; "1.2.3.4:9001"] "de" [];
     mkRelay "B" ["5.6.7.8:443"] "us" []] "us, -ru" ["443"]
  = [mkRelay "B" ["5.6.7.8:443"] "us" []; mkRelay "A" ["1.2.3.4:443"] "de" []].
Proof. vm_compute. reflexivity. Qed.

Example probe_one_relay :
  probeBatch true (λ _, true) oneRelay
  = BatchDone ["1.2.3.4:443"] ["1.2.3.4:443 ABCD" +:+ nl]
      [mkRelay "ABCD" ["1.2.3.4:443"] "de" [];
       mkRelay "ABCD" ["1.2.3.4:443"] "de" ["1.2.3.4:443"]] [].
Proof. reflexivity. Qed.

(** * Further properties of the filter *)

Lemma filter_sublist {A} (f : A → bool) (l : list A) :
  List.filter f l `sublist_of` l.
Proof.
  induction l as [|a l IH]; cbn [List.filter]; [constructor|].
  destruct (f a); [now apply sublist_skip | now apply sublist_cons].
Qed.

Lemma omap_length_le {A B} (f : A → option B) (l : list A) :
  (length (omap f l) ≤ length l)%nat.
Proof.
  induction l as [|a l IH]; cbn [omap list_omap length]; [lia|].
  destruct (f a); cbn [length]; lia.
Qed.

(** X1. The result never holds more relays than the input, and every
    relay in it is an input relay with the same fingerprint, country and
    reachable list, its addresses a sub-sequence of the original ones. *)
Theorem survivors_stem_from_input sortSlice relays rule ports :
  SortSliceSpec sortSlice →
  (length (filterAndSortRelays sortSlice relays rule ports) ≤ length relays)%nat
  ∧ Forall (λ x, ∃ r, r ∈ relays
                 ∧ Fingerprint x = Fingerprint r ∧ Country x = Country r
                 ∧ Reachable x = Reachable r
                 ∧ OrAddresses x `sublist_of` OrAddresses r)
      (filterAndSortRelays sortSlice relays rule ports).
Proof.
  intros Hs. split.
  - rewrite (Permutation_length (filterAndSort_perm _ _ _ _ Hs)).
    apply omap_length_le.
  - apply Forall_forall. intros x Hx.
    apply filterAndSort_elem in Hx as (r & Hr & Hone); [|exact Hs].
    exists r. split; [exact Hr|].
    apply filterOne_Some in Hone as (Hf & Hc & Hre & _ & _ & Hnone & Hsome).
    repeat split; try assumption.
    destruct ports as [|p ports].
    + now rewrite (Hnone eq_refl).
    + destruct (Hsome ltac:(discriminate)) as [-> _]. apply filter_sublist.
Qed.

Lemma survivors_stem_from_input_witness :
  (length (filterAndSortRelays insertionSort demoRelays "de,-us" ["443"])
   ≤ length demoRelays)%nat.
Proof.
  exact (proj1 (survivors_stem_from_input insertionSort demoRelays "de,-us"
                  ["443"] insertionSort_spec)).
Defined.

Lemma HasPrefix_bang s :
  HasPrefix s "!" = true → s = "!" +:+ drop_str 1 s.
Proof.
  destruct s as [|a s]; [discriminate|].
  unfold HasPrefix. cbn [String.prefix].
  destruct (ascii_dec "!" a) as [<-|]; [reflexivity | discriminate].
Qed.

Lemma addCountry_only_inv i t m c :
  has (onlyCountries (addCountry i t m)) c = true →
  has (onlyCountries m) c = true ∨ TrimSpace t = "!" +:+ c.
Proof.
  unfold addCountry. destruct (HasPrefix (TrimSpace t) "!") eqn:Hb.
  - cbn [onlyCountries]. rewrite has_insert.
    intros [H%bool_decide_eq_true|H]%orb_true_iff; [right|now left].
    rewrite <- H. now apply HasPrefix_bang.
  - destruct (HasPrefix (TrimSpace t) "-"); now left.
Qed.

Lemma addCountries_only_inv tokens i m c :
  has (onlyCountries (addCountries i tokens m)) c = true →
  has (onlyCountries m) c = true
  ∨ ∃ t, t ∈ tokens ∧ TrimSpace t = "!" +:+ c.
Proof.
  revert i m; induction tokens as [|t tokens IH]; intros i m H; [now left|].
  cbn [addCountries] in H. apply IH in H as [H|(t' & Hin & Ht)].
  - apply addCountry_only_inv in H as [H|H]; [now left|].
    right. exists t. split; [apply list_elem_of_here | exact H].
  - right. exists t'. split; [now apply list_elem_of_further | exact Ht].
Qed.

Lemma addCountry_only_mono i t m c :
  has (onlyCountries m) c = true →
  has (onlyCountries (addCountry i t m)) c = true.
Proof.
  intros H. unfold addCountry.
  destruct (HasPrefix (TrimSpace t) "!").
  - cbn [onlyCountries]. rewrite has_insert, H. apply orb_true_r.
  - now destruct (HasPrefix (TrimSpace t) "-").
Qed.

Lemma addCountries_only_token tokens i m c t :
  (has (onlyCountries m) c = true ∨ (t ∈ tokens ∧ TrimSpace t = "!" +:+ c)) →
  has (onlyCountries (addCountries i tokens m)) c = true.
Proof.
  revert i m; induction tokens as [|t' tokens IH]; intros i m [H|[Hin Ht]].
  - exact H.
  - inversion Hin.
  - cbn [addCountries]. apply IH. left. now apply addCountry_only_mono.
  - cbn [addCountries]. apply IH.
    apply elem_of_cons in Hin as [->|Hin]; [left|now right].
    unfold addCountry. rewrite Ht.
    change (HasPrefix ("!" +:+ c) "!") with (String.prefix "" c).
    change (drop_str 1 ("!" +:+ c)) with c.
    destruct c; cbn [String.prefix onlyCountries];
      now rewrite has_insert, bool_decide_eq_true_2.
Qed.

Lemma has_size (m : gmap string nat) c :
  has m c = true → (0 <? size m)%nat = true.
Proof.
  unfold has. destruct (m !! c) as [k|] eqn:Hk; [intros _|discriminate].
  apply Nat.ltb_lt. destruct (size m) eqn:Hs; [|lia].
  apply map_size_empty_iff in Hs. subst m. now rewrite lookup_empty in Hk.
Qed.

(** X2. The exclusive rule is strict: when the rule holds a token [!c],
    the country of every relay in the result is one that the rule names
    with a [!] token. *)
Theorem exclusive_rule_is_strict sortSlice relays rule ports t c :
  SortSliceSpec sortSlice →
  t ∈ Split rule "," → TrimSpace t = "!" +:+ c →
  Forall (λ x, ∃ t', t' ∈ Split rule "," ∧ TrimSpace t' = "!" +:+ Country x)
    (filterAndSortRelays sortSlice relays rule ports).
Proof.
  intros Hs Hin Ht. apply Forall_forall. intros x Hx.
  apply filterAndSort_elem in Hx as (r & Hr & Hone); [|exact Hs].
  apply filterOne_Some in Hone as (_ & Hc & _ & _ & Honly & _).
  rewrite Hc. revert Honly. unfold parseCountries.
  destruct (String.eqb_spec rule "") as [->|Hne].
  { apply list_elem_of_singleton in Hin as ->. discriminate Ht. }
  intros Honly.
  assert (Hc0 : has (onlyCountries (addCountries 0 (Split rule ",") noMaps)) c
                = true)
    by (apply addCountries_only_token with t; now right).
  specialize (Honly (has_size _ _ Hc0)).
  apply addCountries_only_inv in Honly as [H|H]; [discriminate H | exact H].
Qed.

Lemma exclusive_rule_is_strict_witness :
  Forall (λ x, ∃ t', t' ∈ Split "!us, !de" ","
               ∧ TrimSpace t' = "!" +:+ Country x)
    (filterAndSortRelays insertionSort demoRelays "!us, !de" []).
Proof.
  apply (exclusive_rule_is_strict insertionSort demoRelays "!us, !de" []
           "!us" "us" insertionSort_spec).
  - vm_compute. apply list_elem_of_here.
  - reflexivity.
Defined.

(** X3. Under a non-empty port list every relay of the result keeps
    exactly the addresses of its input relay whose parsed port is in the
    list, in their order, and keeps at least one. *)
Theorem ports_narrow_addresses sortSlice relays rule ports :
  SortSliceSpec sortSlice → ports ≠ [] →
  Forall (λ x, OrAddresses x ≠ []
               ∧ Forall (λ addr, (parseAddress addr).2 ∈ ports) (OrAddresses x)
               ∧ ∃ r, r ∈ relays ∧ Fingerprint r = Fingerprint x
                      ∧ OrAddresses x
                        = List.filter
                            (λ addr, bool_decide ((parseAddress addr).2 ∈ ports))
                            (OrAddresses r))
    (filterAndSortRelays sortSlice relays rule ports).
Proof.
  intros Hs Hne. apply Forall_forall. intros x Hx.
  apply filterAndSort_elem in Hx as (r & Hr & Hone); [|exact Hs].
  apply filterOne_Some in Hone as (Hf & _ & _ & _ & _ & _ & Hsome).
  destruct (Hsome Hne) as [Heq Hnil].
  assert (Hpm : ∀ addr, portMatches ports addr
                        = bool_decide ((parseAddress addr).2 ∈ ports)).
  { intros addr. unfold portMatches.
    destruct (existsb _ ports) eqn:He; symmetry.
    - apply bool_decide_eq_true. apply existsb_exists in He as (p & Hp & Hpe).
      apply String.eqb_eq in Hpe as <-. now apply list_elem_of_In.
    - apply bool_decide_eq_false. intros Hin%list_elem_of_In.
      assert (existsb (λ p, String.eqb p (parseAddress addr).2) ports = true)
        as Ht; [|congruence].
      apply existsb_exists. eexists. split; [exact Hin | apply String.eqb_refl]. }
  split; [exact Hnil|]. split.
  - rewrite Heq. unfold narrowAddrs. apply Forall_forall.
    intros addr Ha%list_elem_of_In%filter_In.
    destruct Ha as [_ Ha]. rewrite Hpm in Ha.
    now apply bool_decide_eq_true in Ha.
  - exists r. split; [exact Hr|]. split; [congruence|].
    rewrite Heq. unfold narrowAddrs. apply filter_ext. exact Hpm.
Qed.

Lemma ports_narrow_addresses_witness :
  Forall (λ x, OrAddresses x ≠ [])
    (filterAndSortRelays insertionSort
       [mkRelay "A" ["1.2.3.4:443"; "1.2.3.4:9001"] "de" [];
        mkRelay "B" ["5.6.7.8:80"] "us" []] "" ["443"]).
Proof.
  eapply Forall_impl;
    [apply (ports_narrow_addresses insertionSort _ "" ["443"]
              insertionSort_spec); discriminate|].
  intros x Hx. exact (proj1 Hx).
Defined.

(** X4. Without country rule and without port list the candidates pass
    unchanged and in their order, whatever the sort function. *)
Theorem no_filter_is_identity sortSlice relays :
  filterAndSortRelays sortSlice relays "" [] = relays.
Proof.
  unfold filterAndSortRelays. cbn [parseCountries String.eqb noMaps
    sortedCountries]. change (size (∅ : gmap string nat)) with 0%nat.
  cbn [Nat.ltb Nat.leb]. unfold filterRelays.
  induction relays as [|r l IH]; [reflexivity|].
  cbn [omap list_omap]. now rewrite IH.
Qed.

(** * Further properties of [parseAddress] *)

Lemma Split_go_last_piece p q cur :
  Contains q ":" = false →
  ∃ init, init ≠ []
          ∧ Split_go ":" 0 cur (p +:+ ":" +:+ q) = (init ++ [q])%list.
Proof.
  intros Hq. revert cur; induction p as [|c p IH]; intros cur.
  - rewrite append_nil_l. change (":" +:+ q) with (String ":" q).
    cbn [Split_go].
    replace (HasPrefix (String ":" q) ":") with true
      by (unfold HasPrefix; cbn [String.prefix]; now destruct q).
    cbn [String.length Nat.sub]. rewrite Split_go_no_colon by exact Hq.
    exists [string_of_list_ascii (rev cur)]. split; [discriminate|].
    reflexivity.
  - rewrite append_cons. cbn [Split_go].
    destruct (HasPrefix _ ":").
    + cbn [String.length Nat.sub]. destruct (IH []) as (init & Hne & ->).
      exists (string_of_list_ascii (rev cur) :: init).
      split; [discriminate | reflexivity].
    + apply IH.
Qed.

Lemma LastIndex_go_no_colon q off :
  Contains q ":" = false → LastIndex_go off q ":" = (-1)%Z.
Proof.
  revert off; induction q as [|c q IH]; intros off H; [reflexivity|].
  cbn [Contains] in H. apply orb_false_iff in H as [Hp Hc].
  cbn [LastIndex_go]. now rewrite Hp, (IH _ Hc).
Qed.

Lemma LastIndex_go_last_colon p q off :
  (0 ≤ off)%Z → Contains q ":" = false →
  LastIndex_go off (p +:+ ":" +:+ q) ":"
  = (off + Z.of_nat (String.length p))%Z.
Proof.
  intros Hoff Hq. revert off Hoff; induction p as [|c p IH]; intros off Hoff.
  - rewrite append_nil_l. change (":" +:+ q) with (String ":" q).
    cbn [LastIndex_go String.length].
    replace (HasPrefix (String ":" q) ":") with true
      by (unfold HasPrefix; cbn [String.prefix]; now destruct q).
    rewrite LastIndex_go_no_colon by exact Hq.
    change (-1 <? 0)%Z with true. cbv iota. lia.
  - rewrite append_cons. cbn [LastIndex_go String.length].
    rewrite IH by lia.
    destruct (Z.ltb_spec (off + 1 + Z.of_nat (String.length p)) 0); lia.
Qed.

Lemma drop_str_app p s : drop_str (String.length p) (p +:+ s) = s.
Proof. induction p as [|c p IH]; [reflexivity | exact IH]. Qed.

(** X5. Whatever precedes it, bracketed or not, the port returned for an
    address is the text after its last colon. *)
Theorem port_is_text_after_last_colon p q :
  Contains q ":" = false →
  (parseAddress (p +:+ ":" +:+ q)).2 = q.
Proof.
  intros Hq. unfold parseAddress, Split.
  destruct (Split_go_last_piece p q [] Hq) as (init & Hne & ->).
  rewrite length_app. cbn [length].
  replace (length init + 1 <? 2)%nat with false
    by (symmetry; apply Nat.ltb_ge; destruct init; [congruence|cbn; lia]).
  destruct (HasPrefix _ "[" && Contains _ "]:").
  - cbn [snd]. unfold LastIndex.
    rewrite LastIndex_go_last_colon by (lia || exact Hq).
    replace (Z.to_nat (0 + Z.of_nat (String.length p) + 1))
      with (String.length (p +:+ ":")).
    + rewrite <- (append_assoc p ":" q). apply drop_str_app.
    + clear. induction p as [|c p IH]; [reflexivity|].
      rewrite append_cons. cbn [String.length]. rewrite IH. lia.
  - cbn [snd].
    replace (length init + 1 - 1)%nat with (length init) by lia.
    rewrite app_nth2 by lia. now rewrite Nat.sub_diag.
Qed.

Lemma port_is_text_after_last_colon_witness :
  (parseAddress "[2001:db8::1]:9001").2 = "9001".
Proof.
  exact (port_is_text_after_last_colon "[2001:db8::1]" "9001" eq_refl).
Defined.

(** * Further properties of a batch *)

Lemma sink_lines_per_iteration (dial : string → bool) (heap : list Relay)
  (n k : nat) (chunk : list Relay) :
  (∀ j r, chunk !! j = Some r → heap !! (n + k + j)%nat = Some r) →
  map (λ g, Address g +:+ " "
            +:+ match heap !! RelayPtr g with
                | Some r => Fingerprint r
                | None => ""
                end +:+ nl)
      (List.filter (λ g, dial (Address g)) (spawned true n k chunk))
  = flat_map (λ r, map (sinkLine r) (List.filter dial (OrAddresses r))) chunk.
Proof.
  revert k; induction chunk as [|r rest IH]; intros k Hheap; [reflexivity|].
  cbn [spawned flat_map]. rewrite List.filter_app, map_app. f_equal.
  - pose proof (Hheap 0%nat r eq_refl) as H0.
    rewrite Nat.add_0_r in H0. cbn [loopVarCell].
    induction (OrAddresses r) as [|a l IHl]; [reflexivity|].
    cbn [map List.filter Address]. destruct (dial a); [|exact IHl].
    cbn [map Address RelayPtr]. rewrite H0, IHl. reflexivity.
  - apply IH. intros j r' Hj.
    replace (n + S k + j)%nat with (n + k + S j)%nat by lia.
    now apply Hheap.
Qed.

Lemma probeBatch_sink_start_order dial chunk :
  batchSink (probeBatch true dial chunk)
  = flat_map (λ r, map (sinkLine r) (List.filter dial (OrAddresses r))) chunk.
Proof.
  unfold probeBatch.
  destruct (10 * length chunk <? _)%nat; cbn [batchSink];
    apply sink_lines_per_iteration;
    intros j r Hj; rewrite Nat.add_0_r, lookup_app_r by lia;
    now replace (length chunk + j - length chunk)%nat with j by lia.
Qed.

(** X6. A batch dials every address of every relay of the chunk exactly
    once, in order, whether or not it blocks; [_bridges.txt] receives one
    line per successful dial, and with per-iteration loop variables these
    are, in some order, the lines [<address> <fingerprint>] of the relays
    that own the addresses. *)
Theorem batch_dials_and_sink perIteration dial chunk :
  batchDials (probeBatch perIteration dial chunk) = flat_map OrAddresses chunk
  ∧ length (batchSink (probeBatch perIteration dial chunk))
    = length (List.filter dial (flat_map OrAddresses chunk))
  ∧ (perIteration = true →
     batchSink (probeBatch perIteration dial chunk)
     ≡ₚ flat_map (λ r, map (sinkLine r) (List.filter dial (OrAddresses r)))
          chunk).
Proof.
  split; [|split].
  - unfold probeBatch. destruct (10 * length chunk <? _)%nat;
      cbn [batchDials]; apply spawned_addresses.
  - unfold probeBatch. destruct (10 * length chunk <? _)%nat;
      cbn [batchSink]; rewrite length_map; apply successes_length.
  - intros ->. now rewrite probeBatch_sink_start_order.
Qed.

(** X8. When no relay of the chunk has more than ten addresses, the batch
    completes, whatever the dials return. *)
Theorem batch_completes perIteration dial chunk :
  Forall (λ r, (length (OrAddresses r) ≤ 10)%nat) chunk →
  isDeadlock (probeBatch perIteration dial chunk) = false.
Proof.
  intros H. apply not_true_is_false. rewrite probeBatch_deadlock.
  pose proof (flat_map_length_bound chunk H).
  pose proof (filter_length_le dial (flat_map OrAddresses chunk)). lia.
Qed.

Lemma batch_completes_witness :
  isDeadlock (probeBatch false (λ _, true) demoRelays) = false.
Proof.
  apply batch_completes. unfold demoRelays.
  repeat (constructor; [cbn; lia|]). constructor.
Defined.

(** * Further properties of the batch loop *)

Lemma batchLoop_accepted_from fuel perIteration dial relays numRelays goal i st
  stop st' :
  Forall (λ r, r ∈ relays ∧ Reachable r ≠ []) (workingRelays st) →
  batchLoop fuel perIteration dial relays numRelays goal i st = (stop, st') →
  Forall (λ r, r ∈ relays ∧ Reachable r ≠ []) (workingRelays st').
Proof.
  revert i st. induction fuel as [|fuel IH]; intros i st Hw; cbn [batchLoop].
  - now intros [= _ <-].
  - destruct (_ && _); [|now intros [= _ <-]].
    destruct (_ || _); [now intros [= _ <-]|].
    destruct (probeBatch _ _ _) as [d s|d s heap acc] eqn:Hb.
    + now intros [= _ <-].
    + apply probeBatch_accepted in Hb as ->. apply IH.
      cbn [workingRelays]. apply Forall_app. split; [exact Hw|].
      apply Forall_forall. intros r Hr%list_elem_of_In%filter_In.
      destruct Hr as [Hin Hreach]. split.
      * apply list_elem_of_In in Hin.
        eapply sublist_subseteq; [|exact Hin].
        etransitivity; [apply sublist_take | apply sublist_drop].
      * unfold isReachable in Hreach. now destruct (Reachable r).
Qed.

(** X9. Every relay of the accepted set is one of the candidates and has
    a reachable address, for every batch size and however the loop ends. *)
Theorem accepted_are_reachable_candidates
  fuel perIteration dial relays numRelays goal stop st :
  batchLoop fuel perIteration dial relays numRelays goal 0 sched0 = (stop, st) →
  Forall (λ r, r ∈ relays ∧ Reachable r ≠ []) (workingRelays st).
Proof.
  apply batchLoop_accepted_from. constructor.
Qed.

Lemma accepted_are_reachable_candidates_witness :
  ∃ st, batchLoop 9 true (λ _, false) demoRelays 2 3 0 sched0 = (Finished, st)
        ∧ Forall (λ r, r ∈ demoRelays ∧ Reachable r ≠ []) (workingRelays st).
Proof.
  eexists. split; [vm_compute; reflexivity|].
  apply (accepted_are_reachable_candidates 9 true (λ _, false) demoRelays 2 3
           Finished).
  reflexivity.
Defined.

Section LoopTrace.

Variables (perIteration : bool) (dial : string → bool).
Variables (relays : list Relay) (numRelays goal : Z) (n : nat).
Hypothesis Hn : numRelays = Z.of_nat n.

Lemma take_next_chunk k :
  (flat_map OrAddresses (take (k * n) relays)
   ++ flat_map OrAddresses (chunkAt relays n k))%list
  = flat_map OrAddresses (take (S k * n) relays).
Proof.
  unfold chunkAt. rewrite <- flat_map_app, take_take_drop.
  f_equal. f_equal. lia.
Qed.

Lemma batchLoop_trace fuel k st stop st' :
  attempts st = k →
  dialed st = flat_map OrAddresses (take (k * n) relays) →
  length (sink st) = length (List.filter dial (dialed st)) →
  batchLoop fuel perIteration dial relays numRelays goal (Z.of_nat (k * n)) st
  = (stop, st') →
  dialed st' = flat_map OrAddresses (take (attempts st' * n) relays)
  ∧ length (sink st') = length (List.filter dial (dialed st')).
Proof.
  revert k st. induction fuel as [|fuel IH]; intros k st Hk Hd Hs;
    cbn [batchLoop].
  { intros [= _ <-]. now rewrite Hk. }
  destruct (Z.ltb_spec (Z.of_nat (k * n)) (len relays)) as [Hi|Hi];
    cbn [andb]; [|intros [= _ <-]; now rewrite Hk].
  destruct (_ <? goal)%Z; [|intros [= _ <-]; now rewrite Hk].
  unfold len in Hi. apply Nat2Z.inj_lt in Hi.
  pose proof (chunk_slice relays n k numRelays Hn Hi) as Hc. cbv zeta in Hc.
  destruct (_ || _); [intros [= _ <-]; now rewrite Hk|].
  rewrite Hc.
  assert (Hb : batchDials (probeBatch perIteration dial (chunkAt relays n k))
               = flat_map OrAddresses (chunkAt relays n k)
             ∧ length (batchSink (probeBatch perIteration dial
                                    (chunkAt relays n k)))
               = length (List.filter dial
                           (flat_map OrAddresses (chunkAt relays n k)))).
  { unfold probeBatch. destruct (_ <? _)%nat; cbn [batchDials batchSink];
      (split; [apply spawned_addresses
              | rewrite length_map; apply successes_length]). }
  destruct (probeBatch perIteration dial (chunkAt relays n k))
    as [d s|d s heap acc]; cbn [batchDials batchSink] in Hb;
    destruct Hb as [-> Hsl].
  - intros [= _ <-]. cbn [attempts dialed sink].
    rewrite Hk, Hd, take_next_chunk. split; [reflexivity|].
    rewrite <- take_next_chunk, List.filter_app, !length_app, <- Hd. lia.
  - replace (Z.of_nat (k * n) + numRelays)%Z with (Z.of_nat (S k * n)) by lia.
    apply IH; cbn [attempts dialed sink].
    + now rewrite Hk.
    + now rewrite Hd, take_next_chunk.
    + rewrite List.filter_app, !length_app. lia.
Qed.

End LoopTrace.

(** X10. With a positive batch size, the addresses dialled by the loop are
    those of the candidates of the batches it started, each once and in
    candidate order: no candidate is probed twice and none beyond the
    last batch started is probed at all.  [_bridges.txt] has received
    one line per successful dial. *)
Theorem loop_dials_each_candidate_once
  fuel perIteration dial relays numRelays goal stop st :
  (0 < numRelays)%Z →
  batchLoop fuel perIteration dial relays numRelays goal 0 sched0 = (stop, st) →
  dialed st
  = flat_map OrAddresses (take (attempts st * Z.to_nat numRelays) relays)
  ∧ length (sink st) = length (List.filter dial (dialed st)).
Proof.
  intros Hpos Hrun.
  change 0%Z with (Z.of_nat (0 * Z.to_nat numRelays)) in Hrun.
  apply (batchLoop_trace perIteration dial relays numRelays goal
           (Z.to_nat numRelays)) in Hrun; [exact Hrun|lia|reflexivity..].
Qed.

Lemma loop_dials_each_candidate_once_witness :
  ∃ st, batchLoop 9 true (λ _, false) demoRelays 2 3 0 sched0 = (Finished, st)
        ∧ dialed st = flat_map OrAddresses (take 6 demoRelays).
Proof.
  eexists. split; [vm_compute; reflexivity|].
  exact (proj1 (loop_dials_each_candidate_once 9 true (λ _, false) demoRelays
                  2 3 Finished _ eq_refl eq_refl)).
Defined.

(** X11. The accepted set overshoots the goal by less than one batch:
    with a positive goal and batch size, a loop that ends normally has
    accepted fewer than [goal + numRelays] candidates. *)
Theorem overshoot_below_batch_size
  perIteration dial relays numRelays goal st :
  (0 < numRelays)%Z → (0 < goal)%Z →
  batchLoop (S (length relays)) perIteration dial relays numRelays goal 0 sched0
  = (Finished, st) →
  (len (workingRelays st) < goal + numRelays)%Z.
Proof.
  intros Hpos Hgoal Hrun.
  change 0%Z with (Z.of_nat (0 * Z.to_nat numRelays)) in Hrun.
  apply (batchLoop_inv perIteration dial relays numRelays goal
           (Z.to_nat numRelays)) in Hrun;
    [|lia|lia|reflexivity|reflexivity|lia|lia].
  destruct Hrun as (_ & _ & _ & H4 & _ & H6).
  destruct (H4 eq_refl) as [Hw _]. rewrite Hw. unfold len.
  destruct (attempts st) as [|k]; [cbn [acceptedAfter length]; lia|].
  destruct (H6 k) as [Hacc _]; [lia|]. unfold len in Hacc.
  cbn [acceptedAfter]. rewrite length_app.
  pose proof (filter_length_le isReachable
                (chunkAt relays (Z.to_nat numRelays) k)) as Hf.
  unfold chunkAt in Hf at 2. rewrite length_take in Hf. lia.
Qed.

Lemma overshoot_below_batch_size_witness :
  ∃ st, batchLoop 9 true (λ _, false) demoRelays 2 3 0 sched0 = (Finished, st)
        ∧ (len (workingRelays st) < 3 + 2)%Z.
Proof.
  eexists. split; [vm_compute; reflexivity|].
  apply (overshoot_below_batch_size true (λ _, false) demoRelays 2 3);
    reflexivity.
Defined.

(** * Further properties of [main] *)

(** X12. With a goal that is not positive the loop body is never entered:
    provided some relay passed the filter and the sink opened, the run
    dials nothing, writes nothing and returns normally with the report
    that no reachable relay was found. *)
Theorem nonpositive_goal_probes_nothing sortSlice cfg env relays :
  fetched env = Some relays →
  filterAndSortRelays sortSlice relays (preferredCountry cfg)
    (if String.eqb (ports cfg) "" then [] else Split (ports cfg) ",") ≠ [] →
  bridgesFileOpens env = true →
  (goal cfg ≤ 0)%Z →
  main sortSlice cfg env
  = mkRun ExitOk sched0 None ["No reachable relays found."].
Proof.
  intros Hf Hne Hopen Hgoal. unfold main. rewrite Hf.
  destruct (filterAndSortRelays _ _ _ _) as [|r l]; [congruence|].
  cbn [length Nat.eqb]. rewrite Hopen. cbn [negb batchLoop].
  replace (len (workingRelays sched0) <? goal cfg)%Z with false
    by (symmetry; apply Z.ltb_ge; unfold len, sched0;
        cbn [workingRelays length]; lia).
  rewrite andb_false_r. reflexivity.
Qed.

Lemma nonpositive_goal_probes_nothing_witness :
  main insertionSort (mkConfig 30 0 "" "" false "")
    (mkEnv true (Some oneRelay) (λ _, true) true PrefsMissing)
  = mkRun ExitOk sched0 None ["No reachable relays found."].
Proof.
  apply (nonpositive_goal_probes_nothing insertionSort
           (mkConfig 30 0 "" "" false "")
           (mkEnv true (Some oneRelay) (λ _, true) true PrefsMissing)
           oneRelay).
  - reflexivity.
  - vm_compute. discriminate.
  - reflexivity.
  - cbn. lia.
Defined.

(** X13. A batch size that is not positive, with a positive goal and some
    relay left by the filter, ends the run with a run-time fault in the
    first iteration, before any address is dialled: a negative size makes
    the slice bounds invalid, a size of zero divides by zero in the log
    line. *)
Theorem nonpositive_batch_size_faults sortSlice cfg env relays :
  fetched env = Some relays →
  filterAndSortRelays sortSlice relays (preferredCountry cfg)
    (if String.eqb (ports cfg) "" then [] else Split (ports cfg) ",") ≠ [] →
  bridgesFileOpens env = true →
  (numRelays cfg ≤ 0)%Z → (0 < goal cfg)%Z →
  main sortSlice cfg env = mkRun ExitPanic sched0 None [].
Proof.
  intros Hf Hne Hopen Hn Hgoal. unfold main. rewrite Hf.
  destruct (filterAndSortRelays _ _ _ _) as [|r l]; [congruence|].
  cbn [length Nat.eqb]. rewrite Hopen. cbn [negb batchLoop].
  replace (0 <? len (r :: l))%Z with true
    by (symmetry; apply Z.ltb_lt; unfold len; cbn [length]; lia).
  replace (len (workingRelays sched0) <? goal cfg)%Z with true
    by (symmetry; apply Z.ltb_lt; unfold len, sched0;
        cbn [workingRelays length]; lia).
  cbn [andb].
  replace (_ || _) with true; [reflexivity|].
  symmetry. apply orb_true_iff.
  destruct (Z.eq_dec (numRelays cfg) 0) as [->|Hz]; [now right|left].
  apply Z.ltb_lt. destruct (_ >? _)%Z eqn:Hgt; [|lia].
  apply Z.gtb_lt in Hgt. unfold len in *. lia.
Qed.

Lemma nonpositive_batch_size_faults_witness :
  main insertionSort (mkConfig 0 5 "" "" false "")
    (mkEnv true (Some oneRelay) (λ _, true) true PrefsMissing)
  = mkRun ExitPanic sched0 None [].
Proof.
  apply (nonpositive_batch_size_faults insertionSort
           (mkConfig 0 5 "" "" false "")
           (mkEnv true (Some oneRelay) (λ _, true) true PrefsMissing)
           oneRelay).
  - reflexivity.
  - vm_compute. discriminate.
  - reflexivity.
  - cbn. lia.
  - cbn. lia.
Defined.

(** * [loadRelays] *)

Lemma fetchFirst_success get pre u post relays :
  Forall (notLoaded get) pre → get u = Loaded relays →
  fetchFirst get (pre ++ u :: post) = ((pre ++ [u])%list, Some relays).
Proof.
  intros Hpre Hu. induction Hpre as [|v pre Hv Hpre IH]; cbn [app fetchFirst].
  - now rewrite Hu.
  - rewrite IH. destruct (get v) eqn:Hg; try reflexivity.
    now destruct (Hv relays0).
Qed.

Lemma fetchFirst_none get urls :
  (fetchFirst get urls).2 = None ↔ Forall (notLoaded get) urls.
Proof.
  induction urls as [|u urls IH]; cbn [fetchFirst snd].
  - split; [constructor | reflexivity].
  - destruct (get u) eqn:Hg.
    + destruct (fetchFirst get urls) as [c r]. cbn [snd] in *.
      rewrite IH. split.
      * intros H. constructor; [intros rs; congruence | exact H].
      * now intros H%Forall_cons_1.
    + destruct (fetchFirst get urls) as [c r]. cbn [snd] in *.
      rewrite IH. split.
      * intros H. constructor; [intros rs; congruence | exact H].
      * now intros H%Forall_cons_1.
    + cbn [snd]. split; [discriminate|].
      intros [H _]%Forall_cons_1. now destruct (H relays).
Qed.

(** X14. [loadRelays] returns the relays of the first source that can be
    fetched and decoded, and contacts no source after it. *)
Theorem loadRelays_first_success get proxy proxyParses pre u post relays :
  proxy = "" ∨ proxyParses = true →
  Forall (notLoaded get) pre → get u = Loaded relays →
  loadRelays (pre ++ u :: post) proxy proxyParses get
  = ((pre ++ [u])%list, inr relays).
Proof.
  intros Hproxy Hpre Hu. unfold loadRelays.
  replace (negb (String.eqb proxy "") && negb proxyParses) with false
    by (destruct Hproxy as [->| ->]; [reflexivity | now rewrite andb_false_r]).
  now rewrite (fetchFirst_success get pre u post relays Hpre Hu).
Qed.

Lemma loadRelays_first_success_witness :
  loadRelays ["http://a"; "http://b"; "http://c"] "" false
    (λ u, if String.eqb u "http://b" then Loaded oneRelay else GetFails)
  = (["http://a"; "http://b"], inr oneRelay).
Proof.
  apply (loadRelays_first_success _ "" false ["http://a"] "http://b"
           ["http://c"] oneRelay).
  - now left.
  - constructor; [|constructor]. intros rs. discriminate.
  - reflexivity.
Defined.

(** X15. [loadRelays] fails only for an unparsable proxy or when every
    source fails; in the list that [main] builds the built-in sources
    always come after the ones of the [-url] flag, so a failure to load
    means that the four built-in sources failed as well. *)
Theorem loadRelays_failure get urls proxy proxyParses e :
  (loadRelays (urlList urls) proxy proxyParses get).2 = inl e →
  (e = ErrProxy ∧ proxy ≠ "" ∧ proxyParses = false)
  ∨ (e = ErrAllFailed ∧ Forall (notLoaded get) (urlList urls)
     ∧ Forall (notLoaded get) defaultUrls).
Proof.
  unfold loadRelays.
  destruct (String.eqb_spec proxy "") as [->|Hp]; cbn [negb andb].
  - destruct (fetchFirst get (urlList urls)) as [c [rs|]] eqn:Hf;
      [discriminate|]. intros [= <-]. right.
    assert (Hall : Forall (notLoaded get) (urlList urls))
      by (apply fetchFirst_none; now rewrite Hf).
    split; [reflexivity|]. split; [exact Hall|].
    unfold urlList in Hall. destruct (String.eqb urls ""); [exact Hall|].
    now apply Forall_app in Hall.
  - destruct proxyParses; cbn [negb].
    + destruct (fetchFirst get (urlList urls)) as [c [rs|]] eqn:Hf;
        [discriminate|]. intros [= <-]. right.
      assert (Hall : Forall (notLoaded get) (urlList urls))
        by (apply fetchFirst_none; now rewrite Hf).
      split; [reflexivity|]. split; [exact Hall|].
      unfold urlList in Hall. destruct (String.eqb urls ""); [exact Hall|].
      now apply Forall_app in Hall.
    + intros [= <-]. left. now repeat split.
Qed.

Lemma loadRelays_failure_witness :
  Forall (notLoaded (λ _, DecodeFails)) defaultUrls.
Proof.
  destruct (loadRelays_failure (λ _, DecodeFails) "http://mirror" "" false
              ErrAllFailed eq_refl) as [[H _]|(_ & _ & H)];
    [discriminate H | exact H].
Defined.

(** * Further properties of [generateOutput] *)











(** * Rank of a country named more than once *)

Lemma addCountries_app i l1 l2 m :
  addCountries i (l1 ++ l2) m
  = addCountries (i + length l1) l2 (addCountries i l1 m).
Proof.
  revert i m; induction l1 as [|t l1 IH]; intros i m; cbn [app addCountries length].
  - now rewrite Nat.add_0_r.
  - rewrite IH. f_equal. lia.
Qed.

Lemma addCountries_sorted_keep tokens i m c :
  Forall (λ t, TrimSpace t ≠ c) tokens →
  sortedCountries (addCountries i tokens m) !! c = sortedCountries m !! c.
Proof.
  intros H. revert i m.
  induction H as [|t tokens Ht Hall IH]; intros i m; [reflexivity|].
  cbn [addCountries]. rewrite IH. unfold addCountry.
  destruct (HasPrefix (TrimSpace t) "!"); [reflexivity|].
  destruct (HasPrefix (TrimSpace t) "-"); [reflexivity|].
  cbn [sortedCountries]. now rewrite lookup_insert_ne.
Qed.

(** X18. A bare country token takes as rank the position of its last
    occurrence in the rule: later tokens for other countries, and the [!]
    and [-] tokens, leave it untouched. *)
Theorem rank_is_last_position rule pre t post :
  rule ≠ "" → Split rule "," = (pre ++ t :: post)%list →
  HasPrefix (TrimSpace t) "!" = false → HasPrefix (TrimSpace t) "-" = false →
  Forall (λ t', TrimSpace t' ≠ TrimSpace t) post →
  sortedCountries (parseCountries rule) !! TrimSpace t = Some (length pre)
  ∧ ∀ r, Country r = TrimSpace t →
         rankOf (sortedCountries (parseCountries rule)) r = length pre.
Proof.
  intros Hne Hsplit Hb Hm Hpost.
  assert (Hk : sortedCountries (parseCountries rule) !! TrimSpace t
               = Some (length pre)).
  { unfold parseCountries. rewrite (proj2 (String.eqb_neq _ _) Hne), Hsplit.
    rewrite addCountries_app. cbn [addCountries].
    rewrite addCountries_sorted_keep by exact Hpost.
    unfold addCountry. rewrite Hb, Hm. cbn [sortedCountries].
    now rewrite lookup_insert_eq. }
  split; [exact Hk|]. intros r Hr. unfold rankOf. now rewrite Hr, Hk.
Qed.

Lemma rank_is_last_position_witness :
  sortedCountries (parseCountries "us,de,!fr, us ,-ru") !! "us" = Some 3%nat.
Proof.
  refine (proj1 (rank_is_last_position "us,de,!fr, us ,-ru"
                   ["us"; "de"; "!fr"] " us " ["-ru"] _ _ _ _ _)).
  - discriminate.
  - reflexivity.
  - reflexivity.
  - reflexivity.
  - constructor; [discriminate | constructor].
Defined.

(** * [startBrowser] *)

Lemma startBrowser_go_spec exists_ starts cmds :
  Forall (λ c, exists_ c.1 = true) (startBrowser_go exists_ starts cmds).1
  ∧ ((startBrowser_go exists_ starts cmds).2 = true →
     ∃ init c, (startBrowser_go exists_ starts cmds).1 = (init ++ [c])%list
               ∧ starts c.1 c.2 = true
               ∧ Forall (λ c, starts c.1 c.2 = false) init)
  ∧ ((startBrowser_go exists_ starts cmds).2 = false →
     Forall (λ c, starts c.1 c.2 = false)
       (startBrowser_go exists_ starts cmds).1).
Proof.
  induction cmds as [|cmd rest IH]; cbn [startBrowser_go].
  - cbn [fst snd]. split; [constructor|]. split; [discriminate|constructor].
  - destruct (exists_ (nth 0 (Split cmd " ") "")) eqn:He; [|exact IH].
    destruct (starts _ _) eqn:Hs.
    + cbn [fst snd]. split; [now repeat constructor|].
      split; [|discriminate]. intros _.
      exists [], (nth 0 (Split cmd " ") "", drop 1 (Split cmd " ")).
      split; [reflexivity|]. split; [exact Hs | constructor].
    + destruct (startBrowser_go exists_ starts rest) as [tried ok].
      cbn [fst snd] in *. destruct IH as (IH1 & IH2 & IH3).
      split; [now constructor|]. split.
      * intros Hok. destruct (IH2 Hok) as (init & c & -> & Hc & Hinit).
        exists ((nth 0 (Split cmd " ") "", drop 1 (Split cmd " ")) :: init), c.
        split; [reflexivity|]. split; [exact Hc | now constructor].
      * intros Hok. constructor; [exact Hs | now apply IH3].
Qed.

(** X19. [startBrowser] only launches executables that exist; it stops at
    the first launch that works, and reports an error exactly when every
    launch it tried failed (or none of the two executables exists). *)
Theorem startBrowser_launches exists_ starts :
  let tried := (startBrowser exists_ starts).1 in
  let ok := (startBrowser exists_ starts).2 in
  Forall (λ c, exists_ c.1 = true) tried
  ∧ (ok = true →
     ∃ init c, tried = (init ++ [c])%list ∧ starts c.1 c.2 = true
               ∧ Forall (λ c, starts c.1 c.2 = false) init)
  ∧ (ok = false → Forall (λ c, starts c.1 c.2 = false) tried)
  ∧ (exists_ "Browser/start-tor-browser" = true →
     starts "Browser/start-tor-browser" ["--detach"] = true →
     tried = [("Browser/start-tor-browser", ["--detach"])] ∧ ok = true).
Proof.
  cbv zeta. unfold startBrowser.
  destruct (startBrowser_go_spec exists_ starts browserCmds) as (H1 & H2 & H3).
  split; [exact H1|]. split; [exact H2|]. split; [exact H3|].
  intros He Hs. unfold browserCmds. cbn [startBrowser_go].
  change (nth 0 (Split "Browser/start-tor-browser --detach" " ") "")
    with "Browser/start-tor-browser".
  change (drop 1 (Split "Browser/start-tor-browser --detach" " "))
    with ["--detach"].
  now rewrite He, Hs.
Qed.

(** * Completeness of the filter *)

(** X20. No relay that meets the rule is lost: an input relay whose
    country passes the exclusive and excluded sets, and which has an
    address on a listed port when a port list is given, is in the result
    with its addresses narrowed to the listed ports. *)
Theorem passing_relay_survives sortSlice relays rule ports r :
  SortSliceSpec sortSlice →
  r ∈ relays →
  let m := parseCountries rule in
  (size (onlyCountries m) = 0%nat ∨ has (onlyCountries m) (Country r) = true) →
  has (excludeCountries m) (Country r) = false →
  (ports = [] ∨ narrowAddrs ports (OrAddresses r) ≠ []) →
  (if decide (ports = []) then r
   else withAddrs r (narrowAddrs ports (OrAddresses r)))
  ∈ filterAndSortRelays sortSlice relays rule ports.
Proof.
  intros Hs Hr m Honly Hex Hports.
  rewrite (filterAndSort_perm _ _ _ _ Hs). unfold filterRelays.
  apply list_elem_of_omap. exists r. split; [exact Hr|].
  unfold filterOne. fold m.
  replace ((0 <? size (onlyCountries m))%nat
           && negb (has (onlyCountries m) (Country r))) with false.
  2:{ symmetry. destruct Honly as [->| ->]; [reflexivity|].
      now rewrite andb_false_r. }
  rewrite Hex. destruct (decide (ports = [])) as [->|Hne]; [reflexivity|].
  destruct Hports as [->|Hn]; [congruence|].
  destruct ports as [|p ports]; [congruence|]. cbn [length Nat.ltb Nat.leb].
  destruct (narrowAddrs (p :: ports) (OrAddresses r)); [congruence|].
  reflexivity.
Qed.

Lemma passing_relay_survives_witness :
  mkRelay "A" ["1.2.3.4:443"] "de" []
  ∈ filterAndSortRelays insertionSort
      [mkRelay "A" ["1.2.3.4:443"; "1.2.3.4:9001"] "de" [];
       mkRelay "B" ["5.6.7.8:443"] "ru" []] "!de,-ru" ["443"].
Proof.
  apply (passing_relay_survives insertionSort
           [mkRelay "A" ["1.2.3.4:443"; "1.2.3.4:9001"] "de" [];
            mkRelay "B" ["5.6.7.8:443"] "ru" []] "!de,-ru" ["443"]
           (mkRelay "A" ["1.2.3.4:443"; "1.2.3.4:9001"] "de" [])
           insertionSort_spec).
  - apply list_elem_of_here.
  - right. vm_compute. reflexivity.
  - vm_compute. reflexivity.
  - right. vm_compute. discriminate.
Defined.

Lemma main_accepts_nothing_witness :
  workingRelays
    (sched (main insertionSort (mkConfig 30 5 "" "" false "")
              (mkEnv false (Some oneRelay) (λ _, true) true PrefsMissing)))
  = [].
Proof.
  refine (proj1 (main_accepts_nothing insertionSort
                   (mkConfig 30 5 "" "" false "")
                   (mkEnv false (Some oneRelay) (λ _, true) true PrefsMissing)
                   oneRelay insertionSort_spec eq_refl _)).
  repeat constructor.
Defined.
